(** * Evaluation pipeline of the BraTS segmentation model

    A shallow embedding of [segmentation/evaluate.py]: the thresholder
    [to_single_class], the overlap metric [dice_coefficient], the tumor
    extent finder [get_tumor_range], the slice selection and rendering of
    [make_images] / [make_image], the reporter [log_metrics] and the
    partition loop [make_histograms_and_images] / [evaluate].

    Conventions of the model.
    - Numbers held in numpy arrays, and Python floats, are rationals [Q]
      (exact arithmetic: no rounding, no NaN inside arrays, no int64
      wrap-around).
    - A numpy array is its shape together with its elements in row-major
      (C) order, which is the order [np.ravel] returns.
    - Python exceptions are values of [exn]; a computation that may raise
      returns [result].  Code with effects (the random generator, the
      logger, the dataset, the file system) runs in the monad [M], a state
      monad over [world] that keeps the state reached when an exception is
      raised. *)

From Stdlib Require Import String Ascii DecimalString.
From Stdlib Require Import List Arith ZArith QArith Qround Qabs Lia Lqa Bool.
From Stdlib Require Import Permutation Sorted.
From Equations Require Import Equations.
Import ListNotations.

Set Implicit Arguments.
Close Scope Q_scope.

(** ** Exceptions and the pure error monad *)

Inductive exn : Set :=
| IndexError
| ValueError
| TypeError
| KeyError.

Definition result (A : Type) : Type := (exn + A)%type.

Definition ok {A} (a : A) : result A := inr a.
Definition throw {A} (e : exn) : result A := inl e.

Definition rbind {A B} (m : result A) (k : A -> result B) : result B :=
  match m with
  | inl e => inl e
  | inr a => k a
  end.

Declare Scope result_scope.
Delimit Scope result_scope with result.
Notation "x <~ m ;; k" := (rbind m (fun x => k))
  (at level 61, m at next level, right associativity) : result_scope.
Local Open Scope result_scope.

(** ** numpy arrays *)

Record ndarray : Type := mk_ndarray {
  shape : list nat;
  data : list Q
}.

(** Number of elements of an array of a given shape. *)
Definition size_of (s : list nat) : nat := fold_right Nat.mul 1 s.

Definition well_shaped (a : ndarray) : Prop :=
  length (data a) = size_of (shape a).

Definition ndim (a : ndarray) : nat := length (shape a).

(** [np.ravel(a)] *)
Definition ravel (a : ndarray) : list Q := data a.

(** [a.sum()] and [np.sum(a)] as the exact sum; numpy's result is this sum
    wherever its number type represents the partial sums exactly (no int64
    wrap-around, no float64 rounding), as for 0/1 masks and label volumes. *)
Definition Qsum (l : list Q) : Q := fold_right Qplus 0%Q l.
Definition np_sum (a : ndarray) : Q := Qsum (data a).

(** [a.shape[k]] *)
Definition shape_at (a : ndarray) (k : nat) : result nat :=
  match nth_error (shape a) k with
  | Some n => ok n
  | None => throw IndexError
  end.

(** All multi-indices of a shape, in row-major order. *)
Fixpoint indices (s : list nat) : list (list nat) :=
  match s with
  | [] => [[]]
  | n :: s' => flat_map (fun i => map (cons i) (indices s')) (seq 0 n)
  end.

(** Row-major position of a multi-index. *)
Fixpoint offset (s idx : list nat) : nat :=
  match s, idx with
  | _ :: s', i :: idx' => i * size_of s' + offset s' idx'
  | _, _ => 0
  end.

Definition item (a : ndarray) (idx : list nat) : Q :=
  nth (offset (shape a) idx) (data a) 0%Q.

(** The block of [len] consecutive elements that starts at [start]. *)
Definition block (start len : nat) (l : list Q) : list Q :=
  firstn len (skipn start l).

(** Basic indexing with one integer [i] at position [axis] and full slices
    elsewhere.  [outer] counts the index combinations before the axis and
    [inner] the elements under one index of the axis. *)
Definition take_axis (axis i : nat) (a : ndarray) : result ndarray :=
  match nth_error (shape a) axis with
  | None => throw IndexError
  | Some n =>
      if i <? n then
        let outer := size_of (firstn axis (shape a)) in
        let inner := size_of (skipn (S axis) (shape a)) in
        ok {| shape := firstn axis (shape a) ++ skipn (S axis) (shape a);
              data := flat_map (fun o => block ((o * n + i) * inner) inner (data a))
                               (seq 0 outer) |}
      else throw IndexError
  end.

(** [a[:, :, i]]: three index expressions, the integer on axis 2. *)
Definition index_axis2 (a : ndarray) (i : nat) : result ndarray :=
  take_axis 2 i a.

(** [a[:, i, :]]: three index expressions, the integer on axis 1; an array
    of fewer than three dimensions has too many indices. *)
Definition index_axis1 (a : ndarray) (i : nat) : result ndarray :=
  if ndim a <? 3 then throw IndexError else take_axis 1 i a.

(** [a.T]: the axes reversed. *)
Definition transpose (a : ndarray) : ndarray :=
  {| shape := rev (shape a);
     data := map (fun m => item a (rev m)) (indices (rev (shape a))) |}.

(** [a[::-1, :]]: two index expressions, the first axis reversed. *)
Definition flip_first (a : ndarray) : result ndarray :=
  match shape a with
  | n :: (_ :: _) as rest =>
      let inner := size_of rest in
      ok {| shape := shape a;
            data := flat_map (fun i => block ((n - 1 - i) * inner) inner (data a))
                             (seq 0 n) |}
  | _ => throw IndexError
  end.

(** [image[..., 3:]]: the first three entries of the last axis removed. *)
Definition drop_last_axis (k : nat) (a : ndarray) : result ndarray :=
  match rev (shape a) with
  | [] => throw IndexError
  | n :: front =>
      ok {| shape := rev front ++ [n - k];
            data := flat_map (fun o => block (o * n + k) (n - k) (data a))
                             (seq 0 (size_of (rev front))) |}
  end.

(** [np.expand_dims(a, axis=0)] *)
Definition expand_dims0 (a : ndarray) : ndarray :=
  {| shape := 1 :: shape a; data := data a |}.

(** Broadcasting of the right-hand side of an assignment to the shape
    [target]: leading axes of length one in excess are dropped, missing
    leading axes are added, and an axis of length one is repeated. *)
Fixpoint strip_ones (excess : nat) (s : list nat) : list nat :=
  match excess, s with
  | S e, 1 :: s' => strip_ones e s'
  | _, _ => s
  end.

Definition source_index (padded m : list nat) : list nat :=
  map (fun dm : nat * nat => if fst dm =? 1 then 0 else snd dm) (combine padded m).

Definition broadcast_to (b : ndarray) (target : list nat) : result (list Q) :=
  let sb := strip_ones (ndim b - length target) (shape b) in
  if length target <? length sb then throw ValueError
  else
    let padded := repeat 1 (length target - length sb) ++ sb in
    if forallb (fun dt : nat * nat => (fst dt =? snd dt) || (fst dt =? 1)) (combine padded target)
    then ok (map (fun m => nth (offset padded (source_index padded m)) (data b) 0%Q)
                 (indices target))
    else throw ValueError.

(** [a[..., -1] = rhs]: the last entry along the last axis is overwritten,
    everywhere, with [rhs] broadcast to the remaining axes. *)
Definition set_last_channel (a rhs : ndarray) : result ndarray :=
  match rev (shape a) with
  | [] => throw IndexError
  | c :: front =>
      if c =? 0 then throw IndexError
      else
        vals <~ broadcast_to rhs (rev front) ;;
        ok {| shape := shape a;
              data := concat (map (fun jv : nat * Q => block (fst jv * c) (c - 1) (data a) ++ [snd jv])
                                  (combine (seq 0 (length vals)) vals)) |}
  end.

(** ** Thresholder: [to_single_class] *)

Definition Qltb (x y : Q) : bool := negb (Qle_bool y x).

(** [_seg[mask] = v] *)
Definition masked_assign (xs : list Q) (mask : list bool) (v : Q) : list Q :=
  map (fun xm : Q * bool => if snd xm then v else fst xm) (combine xs mask).

(** [.astype(int)]: truncation toward zero. *)
Definition astype_int (x : Q) : Q :=
  inject_Z (if Qle_bool 0 x then Qfloor x else Qceiling x).

Definition to_single_class (seg : ndarray) (threshold : Q) : ndarray :=
  let _seg := data seg in
  let _seg := masked_assign _seg (map (fun x => Qle_bool threshold x) (data seg)) 1%Q in
  let _seg := masked_assign _seg (map (fun x => Qltb x threshold) (data seg)) 0%Q in
  {| shape := shape seg; data := map astype_int _seg |}.

(** ** Overlap metric: [dice_coefficient] *)

Definition truthy (x : Q) : bool := negb (Qeq_bool x 0).

(** [np.logical_and] on two flattened arrays: elementwise when the lengths
    agree, a one-element operand is repeated, anything else cannot be
    broadcast. *)
Definition logical_and (xs ys : list Q) : result (list bool) :=
  if length xs =? length ys then
    ok (map (fun xy : Q * Q => truthy (fst xy) && truthy (snd xy)) (combine xs ys))
  else
    match xs, ys with
    | [x], _ => ok (map (fun y => truthy x && truthy y) ys)
    | _, [y] => ok (map (fun x => truthy x && truthy y) xs)
    | _, _ => throw ValueError
    end.

(** [.sum()] of a boolean array: the number of [True] entries. *)
Definition count_true (bs : list bool) : nat := length (filter (fun b => b) bs).

Definition default_smooth : Q := 2 # 100.

(** The quotient is the rational one; where the divisor is zero numpy
    yields inf or nan with a warning and [Qdiv] yields zero. *)
Definition dice_coefficient (pred truth : ndarray) (smooth : Q) : result Q :=
  let _pred := ravel pred in
  let _truth := ravel truth in
  intersection <~ logical_and _pred _truth ;;
  ok ((2 * inject_Z (Z.of_nat (count_true intersection)) + smooth)
      / (np_sum pred + np_sum truth + smooth))%Q.

(** ** Tumor extent finder: [get_tumor_range] *)

Record Patient : Type := mk_Patient {
  id : string;
  mri : ndarray;
  flair : ndarray;
  seg : ndarray
}.

(** The body of the [for] loop, run over the values of [range]. *)
Fixpoint tumor_range_loop (seg_ : ndarray) (range_ tumor_range : list nat)
  : result (list nat) :=
  match range_ with
  | [] => ok tumor_range
  | i :: rest =>
      slice <~ index_axis2 seg_ i ;;
      if truthy (np_sum slice)
      then tumor_range_loop seg_ rest (tumor_range ++ [i])
      else tumor_range_loop seg_ rest tumor_range
  end.

Definition get_tumor_range (patient : Patient) : result (list nat) :=
  n <~ shape_at (seg patient) 3 ;;
  tumor_range_loop (seg patient) (seq 0 n) [].

(** ** The world of effects *)

Inductive npfloat : Type :=
| Finite (q : Q)
| NaN.

(** Texts handed to the logger and to the plot titles, by format string. *)
Inductive message : Type :=
| Subject (patient_id : string)            (* "Subject: %s" *)
| Prediction (dice : Q)                    (* "UNet Prediction, dice: %f" *)
| PatientDice (patient_id : string) (dice : Q)
                                           (* "Patient: %s, dice coefficient: %s" *)
| EvaluationComplete (name : string)       (* "%s evaluation complete. Stats:" *)
| MeanDice (v : npfloat)                   (* "mean dice: %s" *)
| StdDice (v : npfloat)                    (* "std dice: %s" *)
| MinDice (v : Q)                          (* "min dice: %s" *)
| MaxDice (v : Q)                          (* "max dice: %s" *)
| Plain (text : string).

(** One panel: its title and the arrays given to [imshow], in call order,
    each with the name of the color map when one is passed. *)
Record Axes : Type := mk_Axes {
  title : message;
  shown : list (ndarray * option string);
  axis_off : bool
}.

Record Figure : Type := mk_Figure {
  left_panel : Axes;
  right_panel : Axes
}.

(** The splits of the dataset collaborator. *)
Inductive split : Set :=
| Train
| Validation.

Inductive event : Type :=
| Mkdir (path : string)
| Fetch (s : split) (patient_id : string)
| DropCache
| LogInfo (m : message)
| SaveFig (out_file : string) (fig : Figure).

(** [tape] holds the values that successive calls of [random()] return and
    [cursor] counts the calls made; [trace] lists the effects so far. *)
Record world : Type := mk_world {
  tape : nat -> Q;
  cursor : nat;
  trace : list event
}.

Definition M (A : Type) : Type := world -> world * result A.

Definition ret {A} (a : A) : M A := fun w => (w, inr a).
Definition raise {A} (e : exn) : M A := fun w => (w, inl e).

Definition bind {A B} (m : M A) (k : A -> M B) : M B :=
  fun w =>
    match m w with
    | (w', inl e) => (w', inl e)
    | (w', inr a) => k a w'
    end.

Definition lift {A} (r : result A) : M A := fun w => (w, r).

Definition emit (e : event) : M unit :=
  fun w => ({| tape := tape w; cursor := cursor w; trace := trace w ++ [e] |}, inr tt).

Definition random : M Q :=
  fun w => ({| tape := tape w; cursor := S (cursor w); trace := trace w |},
            inr (tape w (cursor w))).

Declare Scope monad_scope.
Delimit Scope monad_scope with monad.
Notation "x <- m ;; k" := (bind m (fun x => k))
  (at level 61, m at next level, right associativity) : monad_scope.
Notation "m ;;; k" := (bind m (fun _ => k))
  (at level 61, right associativity) : monad_scope.
Local Open Scope monad_scope.

(** [[body for _ in range(k)]] *)
Fixpoint comprehension {A} (k : nat) (body : M A) : M (list A) :=
  match k with
  | O => ret []
  | S k' => x <- body ;; xs <- comprehension k' body ;; ret (x :: xs)
  end.

(** [for x in xs: body x] *)
Fixpoint for_each {A} (xs : list A) (body : A -> M unit) : M unit :=
  match xs with
  | [] => ret tt
  | x :: rest => body x ;;; for_each rest body
  end.

(** ** Weighted slice selection: [random.choices] and [sorted] *)

(** [itertools.accumulate]: the running sums. *)
Fixpoint running (acc : Q) (ws : list Q) : list Q :=
  match ws with
  | [] => []
  | w :: rest => (acc + w)%Q :: running (acc + w)%Q rest
  end.

Definition accumulate (ws : list Q) : list Q :=
  match ws with
  | [] => []
  | w :: rest => w :: running w rest
  end.

(** [l[i]] for a non-negative [i], and [l[-1]]. *)
Definition getitem {A} (l : list A) (i : nat) : result A :=
  match nth_error l i with
  | Some x => ok x
  | None => throw IndexError
  end.

Definition last_item {A} (l : list A) : result A :=
  match rev l with
  | x :: _ => ok x
  | [] => throw IndexError
  end.

(** [bisect.bisect_right(a, x, lo, hi)]: the [while lo < hi] loop. *)
Equations? bisect (a : list Q) (x : Q) (lo hi : nat) : result nat
  by wf (hi - lo) lt :=
  bisect a x lo hi with lt_dec lo hi => {
    | right _ := ok lo
    | left _ with getitem a ((lo + hi) / 2) => {
        | inl e := throw e
        | inr a_mid with Qltb x a_mid => {
            | true := bisect a x lo ((lo + hi) / 2)
            | false := bisect a x ((lo + hi) / 2 + 1) hi } } }.
Proof.
  all: change (fst (Nat.divmod (lo + hi) 1 0 1)) with ((lo + hi) / 2) in *.
  - assert ((lo + hi) / 2 < hi) by (apply Nat.Div0.div_lt_upper_bound; lia).
    assert (lo <= (lo + hi) / 2) by (apply Nat.div_le_lower_bound; lia).
    lia.
  - assert (lo <= (lo + hi) / 2) by (apply Nat.div_le_lower_bound; lia).
    lia.
Qed.

(** [random.choices(population, weights=weights, k=k)], as CPython defines
    it from version 3.9 on: the selections are made with replacement. *)
Definition choices (population : list nat) (weights : list Q) (k : nat)
  : M (list nat) :=
  let n := length population in
  let cum_weights := accumulate weights in
  if negb (length cum_weights =? n) then raise ValueError
  else
    total <- lift (last_item cum_weights) ;;
    if Qle_bool total 0 then raise ValueError
    else
      let hi := n - 1 in
      comprehension k
        (r <- random ;;
         i <- lift (bisect cum_weights (r * total)%Q 0 hi) ;;
         lift (getitem population i)).

(** [sorted] on integers. *)
Fixpoint insort (x : nat) (l : list nat) : list nat :=
  match l with
  | [] => [x]
  | y :: rest => if x <=? y then x :: l else y :: insort x rest
  end.

Definition sorted (l : list nat) : list nat := fold_right insort [] l.

(** Line 113: [sorted(random.choices(tumor_range, weights=weights, k=num_images))]. *)
Definition coronal_slices (tumor_range : list nat) (weights : list Q)
  (num_images : nat) : M (list nat) :=
  drawn <- choices tumor_range weights num_images ;;
  ret (sorted drawn).

(** Line 112: [[np.sum(patient.seg[:, :, i]) for i in tumor_range]]. *)
Fixpoint slice_weights (seg_ : ndarray) (tumor_range : list nat) : result (list Q) :=
  match tumor_range with
  | [] => ok []
  | i :: rest =>
      slice <~ index_axis2 seg_ i ;;
      ws <~ slice_weights seg_ rest ;;
      ok (np_sum slice :: ws)
  end.

(** ** Paths and file names *)

(** ["%d" % n] *)
Definition decimal (n : nat) : string := NilEmpty.string_of_uint (Nat.to_uint n).

Fixpoint ends_with_slash (s : string) : bool :=
  match s with
  | EmptyString => false
  | String c EmptyString => Ascii.eqb c "/"%char
  | String _ rest => ends_with_slash rest
  end.

(** [os.path.join(a, b)] on POSIX paths. *)
Definition path_join (a b : string) : string :=
  match b with
  | String "/"%char _ => b
  | _ =>
      match a with
      | EmptyString => b
      | _ => if ends_with_slash a then (a ++ b)%string
             else (a ++ "/" ++ b)%string
      end
  end.

(** ** matplotlib: [Normalize] *)

Definition clip (x lo hi : Q) : Q :=
  if Qltb x lo then lo else if Qltb hi x then hi else x.

(** [Normalize(vmin, vmax, clip=True)(a)] *)
Definition Normalize (vmin vmax : Q) (a : ndarray) : result ndarray :=
  if Qeq_bool vmin vmax then
    ok {| shape := shape a; data := map (fun _ => 0%Q) (data a) |}
  else if Qltb vmax vmin then throw ValueError
  else
    ok {| shape := shape a;
          data := map (fun x => ((clip x vmin vmax - vmin) / (vmax - vmin))%Q) (data a) |}.

(** ** matplotlib: [imshow]

    [Axes.imshow(X)] accepts an image of two axes, or of three axes whose
    last axis has length 3 or 4 (RGB, RGBA) or length 1 (taken as a scalar
    image); any other shape raises TypeError ("Invalid shape ... for image
    data"). *)
Definition imshow (X : ndarray) : result unit :=
  match shape X with
  | [_; _] => ok tt
  | [_; _; c] => if (c =? 1) || (c =? 3) || (c =? 4) then ok tt else throw TypeError
  | _ => throw TypeError
  end.

(** [a[:, coronal_index, :].T[::-1, :]]: the slice as it is displayed. *)
Definition display_slice (a : ndarray) (coronal_index : nat) : result ndarray :=
  slice <~ index_axis1 a coronal_index ;;
  flip_first (transpose slice).

(** ** numpy reductions used by the reporter *)

Definition Qmean (l : list Q) : Q := (Qsum l / inject_Z (Z.of_nat (length l)))%Q.

(** [np.mean]: the mean of no value is nan (with a warning, no exception);
    otherwise the exact mean, which the float64 result approximates. *)
Definition np_mean (l : list Q) : npfloat :=
  match l with
  | [] => NaN
  | _ => Finite (Qmean l)
  end.

(** [np.min] and [np.max]: a zero-size array has no minimum or maximum. *)
Definition np_min (l : list Q) : result Q :=
  match l with
  | [] => throw ValueError
  | x :: rest => ok (fold_left (fun m y => if Qltb y m then y else m) rest x)
  end.

Definition np_max (l : list Q) : result Q :=
  match l with
  | [] => throw ValueError
  | x :: rest => ok (fold_left (fun m y => if Qltb m y then y else m) rest x)
  end.

(** ** The pipeline

    The collaborators that the repository does not define are parameters:
    the color table of [plt.cm.RdYlBu], the square root of [np.std], the
    model, the dataset, and the partition lists. *)

(** One entry of a color table. *)
Record rgba : Type := mk_rgba {
  red : Q;
  green : Q;
  blue : Q;
  alpha : Q
}.

Record DataSet : Type := mk_DataSet {
  train : string -> result Patient;
  validation : string -> result Patient
}.

Definition patient_of (brats : DataSet) (s : split) : string -> result Patient :=
  match s with
  | Train => train brats
  | Validation => validation brats
  end.

Section Pipeline.

(** [plt.cm.RdYlBu] on one value. *)
Variable RdYlBu : Q -> rgba.
(** [np.sqrt] *)
Variable np_sqrt : Q -> Q.
(** [BraTS.DataSet(brats_root=config.brats_directory, year=2018)] *)
Variable brats : DataSet.
(** [get_all_partition_ids()] *)
Variable get_all_partition_ids : list string * list string * list string.

(** A color map applied to an array: one more axis, of length four. *)
Definition cmap (a : ndarray) : ndarray :=
  {| shape := shape a ++ [4];
     data := flat_map (fun x => let c := RdYlBu x in [red c; green c; blue c; alpha c])
                      (data a) |}.

(** [np.std]: the root of the mean squared deviation. *)
Definition np_std (l : list Q) : npfloat :=
  match l with
  | [] => NaN
  | _ =>
      let m := Qmean l in
      Finite (np_sqrt (Qmean (map (fun x => (Qabs (x - m) * Qabs (x - m))%Q) l)))
  end.

(** [brats.<split>.patient(id)] and [brats.drop_cache()] *)
Definition patient (s : split) (id_ : string) : M Patient :=
  emit (Fetch s id_) ;;; lift (patient_of brats s id_).

Definition drop_cache : M unit := emit DropCache.

Definition info (m : message) : M unit := emit (LogInfo m).

Definition make_image (patient_ : Patient) (segmentation : ndarray)
  (coronal_index : nat) (dice : Q) (output_dir : string) : M unit :=
  _img <- lift (display_slice (flair patient_) coronal_index) ;;
  _seg <- lift (display_slice (to_single_class (seg patient_) (1 # 2)) coronal_index) ;;
  let vmax := 1%Q in
  let vmin := 0%Q in
  colors <- lift (Normalize vmin vmax _seg) ;;
  let colors := cmap colors in
  colors <- lift (set_last_channel colors _seg) ;;
  lift (imshow _img) ;;;
  lift (imshow colors) ;;;
  let axarr0 :=
    {| title := Subject (id patient_);
       shown := [(_img, Some "gray"%string); (colors, None)];
       axis_off := true |} in
  colors_p <- lift (Normalize vmin vmax segmentation) ;;
  let colors_p := cmap colors in
  colors_p <- lift (set_last_channel colors_p segmentation) ;;
  lift (imshow _img) ;;;
  lift (imshow colors_p) ;;;
  let axarr1 :=
    {| title := Prediction dice;
       shown := [(_img, Some "gray"%string); (colors_p, None)];
       axis_off := true |} in
  let out_file :=
    path_join output_dir
      (id patient_ ++ "_" ++ decimal coronal_index ++ ".png")%string in
  emit (SaveFig out_file {| left_panel := axarr0; right_panel := axarr1 |}).

Definition make_images (patient_ : Patient) (predicted_seg : ndarray)
  (output_directory : string) (dice : Q) (num_images : nat) : M unit :=
  tumor_range <- lift (get_tumor_range patient_) ;;
  weights <- lift (slice_weights (seg patient_) tumor_range) ;;
  slices <- coronal_slices tumor_range weights num_images ;;
  for_each slices
    (fun coronal_index =>
       make_image patient_ predicted_seg coronal_index dice output_directory).

Definition log_metrics (dice_coefficients : list Q) (name : string) : M unit :=
  let mean_dice := np_mean dice_coefficients in
  let std_dice := np_std dice_coefficients in
  min_dice <- lift (np_min dice_coefficients) ;;
  max_dice <- lift (np_max dice_coefficients) ;;
  info (EvaluationComplete name) ;;;
  info (MeanDice mean_dice) ;;;
  info (StdDice std_dice) ;;;
  info (MinDice min_dice) ;;;
  info (MaxDice max_dice).

(** [image[..., 3:]] *)
Definition _crop (image : ndarray) : result ndarray := drop_last_axis 3 image.

Section Evaluation.

Variable run_model : ndarray -> result ndarray.

Definition get_segmentation (mri_ : ndarray) : result ndarray :=
  let _mri := expand_dims0 mri_ in
  cropped <~ _crop _mri ;;
  out <~ run_model cropped ;;
  ok (to_single_class out (1 # 2)).

(** The [for id in patient_ids] loop, with the list of scores so far. *)
Fixpoint patients_loop (patient_ids : list string) (out_dir : string)
  (dice_coefficients : list Q) : M (list Q) :=
  match patient_ids with
  | [] => ret dice_coefficients
  | id_ :: rest =>
      patient_ <- patient Train id_ ;;
      pred <- lift (get_segmentation (mri patient_)) ;;
      cropped <- lift (_crop (seg patient_)) ;;
      let truth := to_single_class cropped (1 # 2) in
      dice <- lift (dice_coefficient pred truth default_smooth) ;;
      info (PatientDice id_ dice) ;;;
      let dice_coefficients := dice_coefficients ++ [dice] in
      make_images patient_ pred out_dir dice 5 ;;;
      drop_cache ;;;
      patients_loop rest out_dir dice_coefficients
  end.

Definition make_histograms_and_images (patient_ids : list string)
  (output_dir name : string) : M unit :=
  let out_dir := path_join output_dir name in
  emit (Mkdir out_dir) ;;;
  dice_coefficients <- patients_loop patient_ids out_dir [] ;;
  log_metrics dice_coefficients name.

Definition evaluate (output_dir : string) : M unit :=
  let '(train_ids, test_ids, validation_ids) := get_all_partition_ids in
  info (Plain "Evaluating test data...") ;;;
  make_histograms_and_images test_ids output_dir "unnamed" ;;;
  info (Plain "Evaluating validation data...") ;;;
  make_histograms_and_images validation_ids output_dir "unnamed" ;;;
  info (Plain "Evaluating training data...") ;;;
  make_histograms_and_images train_ids output_dir "unnamed".

End Evaluation.

End Pipeline.

(** ** Vocabulary of the statements *)

(** A mask is binarized when each of its values is zero or one. *)
Definition binary (x : Q) : Prop := (x == 0)%Q \/ (x == 1)%Q.
Definition binarized (a : ndarray) : Prop := Forall binary (data a).

(** The number of positions at which both sequences are nonzero. *)
Definition both_nonzero (xs ys : list Q) : nat :=
  length (filter (fun xy : Q * Q => negb (Qeq_bool (fst xy) 0) && negb (Qeq_bool (snd xy) 0))
                 (combine xs ys)).

(** The value [to_single_class] gives to one element. *)
Definition threshold_at (threshold x : Q) : Q :=
  if Qle_bool threshold x then 1%Q else 0%Q.

(** The values at the last index of the last axis, in row-major order. *)
Definition last_channel (a : ndarray) : list Q :=
  match rev (shape a) with
  | [] => []
  | c :: front => map (fun j => nth (j * c + (c - 1)) (data a) 0%Q) (seq 0 (size_of front))
  end.

(** The overlay of the right panel as the specification words it: the
    slice of the predicted mask at the chosen index, displayed and colored
    the way the ground truth is. *)
Definition prediction_overlay_spec (RdYlBu : Q -> rgba) (segmentation : ndarray)
  (coronal_index : nat) : result ndarray :=
  _pred <~ display_slice segmentation coronal_index ;;
  colors_p <~ Normalize 0 1 _pred ;;
  set_last_channel (cmap RdYlBu colors_p) _pred.

(** The patient lookups of a trace: split queried and identifier, in order. *)
Definition fetches (t : list event) : list (split * string) :=
  flat_map (fun e => match e with
                     | Fetch s patient_id => [(s, patient_id)]
                     | _ => []
                     end) t.

(** A computation that, from any world, only appends events that satisfy
    [P] to the trace, whether it returns or raises. *)
Definition only_emits (P : event -> Prop) {A} (m : M A) : Prop :=
  forall w, exists new, trace (fst (m w)) = trace w ++ new /\ Forall P new.

(** The record that the loop logs for a patient once the score is known. *)
Definition patient_note (e : event) : Prop :=
  match e with
  | LogInfo (PatientDice _ _) => True
  | _ => False
  end.

(** A computation that raises from every world, after appending only
    events that satisfy [P] to the trace. *)
Definition stops_with (P : event -> Prop) {A} (m : M A) : Prop :=
  forall w, exists new e,
    trace (fst (m w)) = trace w ++ new /\ Forall P new /\ snd (m w) = inl e.

(** ** Sample inputs *)

Definition mask_101 : ndarray := {| shape := [3]; data := [1%Q; 0%Q; 1%Q] |}.
Definition mask_110 : ndarray := {| shape := [3]; data := [1%Q; 1%Q; 0%Q] |}.

Definition one_voxel (v : Q) : ndarray := {| shape := [1; 1; 1]; data := [v] |}.

Definition volume (s : list nat) (values : list Z) : ndarray :=
  {| shape := s; data := map inject_Z values |}.

Definition patient_with (flair_ seg_ : ndarray) : Patient :=
  {| id := "Brats18_0001"; mri := expand_dims0 flair_; flair := flair_; seg := seg_ |}.

(** A volume of 2 x 2 x 3 voxels without tumor. *)
Definition empty_volume : ndarray := volume [2; 2; 3] (repeat 0%Z 12).

(** Four axes of lengths 1, 1, 2, 2; the only tumor voxel has index 0 on
    the third axis and index 1 on the last axis. *)
Definition tumor_at_last_1 : ndarray := volume [1; 1; 2; 2] [0; 1; 0; 0]%Z.

(** Four axes of lengths 1, 2, 2, 1; the only tumor voxel has index 1 on
    the second axis and index 0 on the third axis. *)
Definition tumor_off_axis : ndarray := volume [1; 2; 2; 1] [0; 0; 1; 0]%Z.


(** A scan of 1 x 1 x 4 voxels, its ground truth with tumor in the last
    voxel, and a prediction with tumor in the first voxel. *)
Definition scan_114 : ndarray := volume [1; 1; 4] [5; 6; 7; 8]%Z.
Definition truth_114 : ndarray := volume [1; 1; 4] [0; 0; 0; 1]%Z.
Definition prediction_114 : ndarray := volume [1; 1; 4] [1; 0; 0; 0]%Z.

(** The world after [n] further calls of [random()]. *)
Definition advance (n : nat) (w : world) : world :=
  {| tape := tape w; cursor := cursor w + n; trace := trace w |}.

(** A world in which [random()] always returns zero and nothing has
    happened yet. *)
Definition quiet_world : world :=
  {| tape := fun _ => 0%Q; cursor := 0; trace := [] |}.

(** Four axes of lengths 1, 1, 2, 2 without tumor. *)
Definition tumor_free : ndarray := volume [1; 1; 2; 2] [0; 0; 0; 0]%Z.

(** The square root of n/d taken as floor(sqrt(n d))/d: exact on the
    squares of rationals, from below otherwise. *)
Definition sqrt_floor (q : Q) : Q :=
  (Z.sqrt (Qnum q * Zpos (Qden q)) # Qden q)%Q.

(** A gray color table, a dataset that answers every identifier of the
    training split with the same patient, and a model whose output is a
    single positive voxel. *)
Definition gray_table (x : Q) : rgba :=
  {| red := x; green := x; blue := x; alpha := 1%Q |}.

Definition one_patient_dataset : DataSet :=
  {| train := fun _ => ok (patient_with tumor_off_axis tumor_off_axis);
     validation := fun _ => throw KeyError |}.

Definition constant_model (_ : ndarray) : result ndarray := ok (volume [1] [1]%Z).

(** A volume of BraTS labels: 0 is background, 1, 2 and 4 are tumor
    classes. *)
Definition labels_124 : ndarray := volume [1; 1; 4] [0; 1; 2; 4]%Z.

(** A scan of 1 x 2 x 5 voxels numbered from 0 to 9. *)
Definition scan_125 : ndarray := volume [1; 2; 5] [0; 1; 2; 3; 4; 5; 6; 7; 8; 9]%Z.

(** The world after the events [new] have been appended to the trace. *)
Definition after (new : list event) (w : world) : world :=
  {| tape := tape w; cursor := cursor w; trace := trace w ++ new |}.

(** A prediction of a single positive voxel. *)
Definition one_positive : ndarray := volume [1] [1]%Z.

(** A computation that raises from every world. *)
Definition always_raises {A} (m : M A) : Prop :=
  forall w, exists e, snd (m w) = inl e.





(** * Properties *)

(** ** Overlap metric *)

Lemma logical_and_same_length (xs ys : list Q) :
  length xs = length ys ->
  logical_and xs ys =
  ok (map (fun xy : Q * Q => truthy (fst xy) && truthy (snd xy)) (combine xs ys)).
Proof.
  intros H. unfold logical_and. rewrite H, Nat.eqb_refl. reflexivity.
Qed.

Lemma count_true_both_nonzero (xs ys : list Q) :
  count_true (map (fun xy : Q * Q => truthy (fst xy) && truthy (snd xy)) (combine xs ys))
  = both_nonzero xs ys.
Proof.
  unfold count_true, both_nonzero, truthy.
  induction (combine xs ys) as [| [x y] l IH]; simpl; [reflexivity |].
  destruct (negb (Qeq_bool x 0) && negb (Qeq_bool y 0)); simpl; rewrite IH; reflexivity.
Qed.

Lemma Qsum_binary_nonneg (l : list Q) : Forall binary l -> (0 <= Qsum l)%Q.
Proof.
  induction 1 as [| x l [Hx | Hx] _ IH]; simpl; [lra | rewrite Hx; lra ..].
Qed.

Lemma Qeq_bool_zero (x : Q) : (x == 0)%Q -> Qeq_bool x 0 = true.
Proof. apply Qeq_eq_bool. Qed.

Lemma Qeq_bool_one (x : Q) : (x == 1)%Q -> Qeq_bool x 0 = false.
Proof.
  intros H. destruct (Qeq_bool x 0) eqn:E; [| reflexivity].
  apply Qeq_bool_eq in E. rewrite H in E. discriminate E.
Qed.

Lemma inject_nat_S (n : nat) :
  (inject_Z (Z.of_nat (S n)) == inject_Z (Z.of_nat n) + 1)%Q.
Proof.
  rewrite Nat2Z.inj_succ. unfold Z.succ. rewrite inject_Z_plus. reflexivity.
Qed.

(** Twice the overlap of two binarized sequences is at most the sum of
    their values. *)
Lemma twice_overlap_le_sums (xs : list Q) :
  forall ys, length xs = length ys -> Forall binary xs -> Forall binary ys ->
  (2 * inject_Z (Z.of_nat (both_nonzero xs ys)) <= Qsum xs + Qsum ys)%Q.
Proof.
  unfold both_nonzero.
  induction xs as [| x xs IH]; intros [| y ys] Hlen Hxs Hys; simpl in Hlen.
  - vm_compute. discriminate.
  - discriminate Hlen.
  - discriminate Hlen.
  - inversion Hxs as [| ? ? Hx Hxs']; inversion Hys as [| ? ? Hy Hys']; subst.
    injection Hlen as Hlen. specialize (IH ys Hlen Hxs' Hys').
    simpl.
    pose proof (Qsum_binary_nonneg Hxs'). pose proof (Qsum_binary_nonneg Hys').
    destruct Hx as [Hx | Hx], Hy as [Hy | Hy].
    + rewrite (Qeq_bool_zero Hx). simpl. rewrite Hx, Hy. lra.
    + rewrite (Qeq_bool_zero Hx). simpl. rewrite Hx, Hy. lra.
    + rewrite (Qeq_bool_zero Hy), andb_false_r. simpl. rewrite Hx, Hy. lra.
    + rewrite (Qeq_bool_one Hx), (Qeq_bool_one Hy). simpl negb. simpl andb.
      cbv iota. simpl length. rewrite inject_nat_S.
      simpl Qsum. rewrite Hx, Hy. lra.
Qed.

(** C1. For binarized masks of equal shape and a positive smoothing
    constant, [dice_coefficient] returns
    (2 * number of positions where both are nonzero + smooth) /
    (sum of pred + sum of truth + smooth), the divisor is positive, and the
    value lies in (0, 1]. *)
Theorem dice_coefficient_binarized (pred truth : ndarray) (smooth : Q) :
  shape pred = shape truth ->
  well_shaped pred -> well_shaped truth ->
  binarized pred -> binarized truth ->
  (0 < smooth)%Q ->
  exists d : Q,
    dice_coefficient pred truth smooth = inr d /\
    d = ((2 * inject_Z (Z.of_nat (both_nonzero (data pred) (data truth))) + smooth)
         / (np_sum pred + np_sum truth + smooth))%Q /\
    (0 < np_sum pred + np_sum truth + smooth)%Q /\
    (0 < d)%Q /\ (d <= 1)%Q.
Proof.
  intros Hshape Hp Ht Bp Bt Hs.
  assert (Hlen : length (data pred) = length (data truth)).
  { unfold well_shaped in *. congruence. }
  pose proof (Qsum_binary_nonneg Bp) as Pp.
  pose proof (Qsum_binary_nonneg Bt) as Pt.
  pose proof (twice_overlap_le_sums Hlen Bp Bt) as Hle.
  assert (Hn : (0 <= inject_Z (Z.of_nat (both_nonzero (data pred) (data truth))))%Q).
  { change 0%Q with (inject_Z 0). rewrite <- Zle_Qle. lia. }
  assert (Hden : (0 < np_sum pred + np_sum truth + smooth)%Q).
  { unfold np_sum. lra. }
  eexists. split; [| split; [reflexivity | split; [exact Hden | split]]].
  - unfold dice_coefficient, ravel.
    rewrite (logical_and_same_length _ _ Hlen). simpl.
    rewrite count_true_both_nonzero. reflexivity.
  - apply Qlt_shift_div_l; [exact Hden | lra].
  - apply Qle_shift_div_r; [exact Hden |]. unfold np_sum. lra.
Qed.

Lemma dice_coefficient_binarized_witness :
  (shape mask_101 = shape mask_110 /\
   well_shaped mask_101 /\ well_shaped mask_110 /\
   binarized mask_101 /\ binarized mask_110 /\
   (0 < default_smooth)%Q) /\
  exists d : Q,
    dice_coefficient mask_101 mask_110 default_smooth = inr d /\
    d = ((2 * inject_Z (Z.of_nat (both_nonzero (data mask_101) (data mask_110)))
          + default_smooth)
         / (np_sum mask_101 + np_sum mask_110 + default_smooth))%Q /\
    (0 < np_sum mask_101 + np_sum mask_110 + default_smooth)%Q /\
    (0 < d)%Q /\ (d <= 1)%Q.
Proof.
  assert (B1 : binarized mask_101)
    by (repeat constructor; (left; reflexivity) || (right; reflexivity)).
  assert (B2 : binarized mask_110)
    by (repeat constructor; (left; reflexivity) || (right; reflexivity)).
  split.
  - repeat split; solve [reflexivity | exact B1 | exact B2].
  - apply (@dice_coefficient_binarized mask_101 mask_110 default_smooth);
      solve [reflexivity | exact B1 | exact B2].
Defined.

(** ** Thresholder *)

Lemma masked_assign_twice (threshold : Q) (xs : list Q) :
  map astype_int
    (masked_assign
       (masked_assign xs (map (fun x => Qle_bool threshold x) xs) 1%Q)
       (map (fun x => Qltb x threshold) xs) 0%Q)
  = map (threshold_at threshold) xs.
Proof.
  unfold masked_assign, threshold_at, Qltb.
  induction xs as [| x xs IH]; simpl; [reflexivity |].
  rewrite IH. f_equal.
  destruct (Qle_bool threshold x); reflexivity.
Qed.

(** Each element becomes one when it reaches the threshold and zero when it
    does not; the shape is kept. *)
Lemma to_single_class_elementwise (seg_ : ndarray) (threshold : Q) :
  to_single_class seg_ threshold =
  {| shape := shape seg_; data := map (threshold_at threshold) (data seg_) |}.
Proof.
  unfold to_single_class. rewrite masked_assign_twice. reflexivity.
Qed.

Lemma threshold_at_idempotent (threshold x : Q) :
  (0 < threshold)%Q -> (threshold <= 1)%Q ->
  threshold_at threshold (threshold_at threshold x) = threshold_at threshold x.
Proof.
  intros Hpos Hle. unfold threshold_at.
  destruct (Qle_bool threshold x).
  - apply Qle_bool_iff in Hle. rewrite Hle. reflexivity.
  - destruct (Qle_bool threshold 0) eqn:E; [| reflexivity].
    apply Qle_bool_iff in E. lra.
Qed.

(** C5, as stated: applying [to_single_class] twice with any threshold
    gives the result of applying it once.  It fails for the threshold 2 on
    a voxel of value 3: the first pass yields 1, the second pass yields 0. *)
Lemma to_single_class_twice_differs :
  ~ (forall (V : ndarray) (t : Q),
       to_single_class (to_single_class V t) t = to_single_class V t).
Proof.
  intros H. specialize (H (one_voxel 3%Q) 2%Q). discriminate H.
Qed.

(** C5, amended. For every volume and every threshold in (0, 1],
    [to_single_class] is idempotent. *)
Theorem to_single_class_idempotent (V : ndarray) (t : Q) :
  (0 < t)%Q -> (t <= 1)%Q ->
  to_single_class (to_single_class V t) t = to_single_class V t.
Proof.
  intros Hpos Hle. rewrite !to_single_class_elementwise. simpl.
  f_equal. rewrite map_map. apply map_ext.
  intros x. apply threshold_at_idempotent; assumption.
Qed.

Lemma to_single_class_idempotent_witness :
  ((0 < 1 # 2)%Q /\ (1 # 2 <= 1)%Q) /\
  to_single_class (to_single_class (one_voxel (7 # 10)) (1 # 2)) (1 # 2)
  = to_single_class (one_voxel (7 # 10)) (1 # 2).
Proof.
  split.
  - split; [reflexivity | discriminate].
  - apply (@to_single_class_idempotent (one_voxel (7 # 10)) (1 # 2));
      [reflexivity | discriminate].
Defined.

(** ** Tumor extent finder *)

(** The loop bound is read from the fourth axis: a volume of three axes or
    fewer has none. *)
Lemma get_tumor_range_needs_four_axes (p : Patient) :
  ndim (seg p) <= 3 -> get_tumor_range p = inl IndexError.
Proof.
  intros H. unfold get_tumor_range, shape_at.
  replace (nth_error (shape (seg p)) 3) with (@None nat); [reflexivity |].
  symmetry. apply nth_error_None. exact H.
Qed.

(** The loop only ever appends the index at hand, so the result lists, in
    ascending order, the indices of its range whose [seg[:, :, i]] has a
    nonzero sum. *)
Lemma tumor_range_loop_filter (seg_ : ndarray) (range_ : list nat) :
  forall acc tumor_range,
    tumor_range_loop seg_ range_ acc = inr tumor_range ->
    exists kept,
      tumor_range = acc ++ kept /\
      kept = filter (fun i => match index_axis2 seg_ i with
                              | inr slice => truthy (np_sum slice)
                              | inl _ => false
                              end) range_.
Proof.
  induction range_ as [| i rest IH]; intros acc tumor_range H; simpl in H.
  - exists []. injection H as <-. rewrite app_nil_r. split; reflexivity.
  - simpl. destruct (index_axis2 seg_ i) as [e | slice]; simpl in H; [discriminate H |].
    destruct (truthy (np_sum slice)).
    + destruct (IH _ _ H) as (kept & -> & ->).
      eexists. rewrite <- app_assoc. split; reflexivity.
    + destruct (IH _ _ H) as (kept & -> & ->).
      eexists. split; reflexivity.
Qed.

(** C3. On a three-axis volume without tumor [get_tumor_range] raises
    IndexError, where the claim has the empty sequence; on a four-axis
    volume whose tumor lies only at index 1 of the last axis it returns
    [0], where the claim has [1]. *)
Theorem get_tumor_range_wrong_axis :
  get_tumor_range (patient_with empty_volume empty_volume) = inl IndexError /\
  (exists s0 s1,
     take_axis 3 0 tumor_at_last_1 = inr s0 /\ truthy (np_sum s0) = false /\
     take_axis 3 1 tumor_at_last_1 = inr s1 /\ truthy (np_sum s1) = true) /\
  get_tumor_range (patient_with tumor_at_last_1 tumor_at_last_1) = inr [0].
Proof.
  split; [| split].
  - reflexivity.
  - do 2 eexists. repeat split; reflexivity.
  - reflexivity.
Qed.

(** ** Slice axis across the components *)

(** C4. The extent finder and the weights read [seg[:, :, i]] while the
    renderer reads [seg[:, i, :]]: for this patient the extent is [0] with
    weight 1, and the slice rendered for index 0 holds no tumor voxel. *)
Theorem slice_axis_differs_in_rendering :
  get_tumor_range (patient_with tumor_off_axis tumor_off_axis) = inr [0] /\
  slice_weights tumor_off_axis [0] = inr [1%Q] /\
  index_axis2 tumor_off_axis 0 = inr (volume [1; 2; 1] [0; 1]%Z) /\
  index_axis1 tumor_off_axis 0 = inr (volume [1; 2; 1] [0; 0]%Z) /\
  display_slice (to_single_class tumor_off_axis (1 # 2)) 0
    = inr (volume [1; 2; 1] [0; 0]%Z).
Proof.
  repeat split; reflexivity.
Qed.

(** ** Visualization composer *)

(** C9. For a scan of 1 x 1 x 4 voxels the ground-truth overlay of
    [make_image] is made from the sliced and displayed ground truth and is
    accepted by [imshow].  The right overlay of lines 91 to 93 is the color
    map applied to that ground-truth overlay, with the whole prediction
    volume, neither sliced nor transposed nor reversed, written to its
    last channel: an array of four axes, which [imshow] refuses, so that
    [make_image] raises TypeError and saves no figure.  The overlay of the
    sliced and displayed prediction has three axes and other values, and
    [imshow] accepts it. *)
Theorem make_image_right_panel_not_sliced (RdYlBu : Q -> rgba) (dice : Q) (w : world) :
  exists shown_truth scaled colors colors_p claimed : ndarray,
    display_slice (to_single_class truth_114 (1 # 2)) 0 = inr shown_truth /\
    shown_truth = volume [4; 1] [1; 0; 0; 0]%Z /\
    Normalize 0 1 shown_truth = inr scaled /\
    set_last_channel (cmap RdYlBu scaled) shown_truth = inr colors /\
    shape colors = [4; 1; 4] /\
    last_channel colors = map inject_Z [1; 0; 0; 0]%Z /\
    imshow colors = inr tt /\
    set_last_channel (cmap RdYlBu colors) prediction_114 = inr colors_p /\
    shape colors_p = [4; 1; 4; 4] /\
    last_channel colors_p
      = map inject_Z [1; 0; 0; 0; 1; 0; 0; 0; 1; 0; 0; 0; 1; 0; 0; 0]%Z /\
    imshow colors_p = inl TypeError /\
    display_slice prediction_114 0 = inr (volume [4; 1] [0; 0; 0; 1]%Z) /\
    prediction_overlay_spec RdYlBu prediction_114 0 = inr claimed /\
    shape claimed = [4; 1; 4] /\
    last_channel claimed = map inject_Z [0; 0; 0; 1]%Z /\
    imshow claimed = inr tt /\
    make_image RdYlBu (patient_with scan_114 truth_114) prediction_114 0 dice "out" w
    = (w, inl TypeError).
Proof.
  pose (shown_truth := volume [4; 1] [1; 0; 0; 0]%Z).
  destruct (Normalize 0 1 shown_truth) as [e | scaled] eqn:En; [discriminate En |].
  destruct (set_last_channel (cmap RdYlBu scaled) shown_truth)
    as [e | colors] eqn:Ec; [injection En as <-; discriminate Ec |].
  destruct (set_last_channel (cmap RdYlBu colors) prediction_114)
    as [e | colors_p] eqn:E;
    [injection En as <-; injection Ec as <-; discriminate E |].
  destruct (prediction_overlay_spec RdYlBu prediction_114 0)
    as [e | claimed] eqn:F; [discriminate F |].
  exists shown_truth, scaled, colors, colors_p, claimed.
  injection En as <-. injection Ec as <-. injection E as <-. injection F as <-.
  repeat split; reflexivity.
Qed.

(** ** Weighted slice selection *)

Lemma insort_perm (x : nat) (l : list nat) : Permutation (x :: l) (insort x l).
Proof.
  induction l as [| y l IH]; simpl; [apply Permutation_refl |].
  destruct (x <=? y); [apply Permutation_refl |].
  eapply perm_trans; [apply perm_swap | apply perm_skip, IH].
Qed.

Lemma sorted_perm (l : list nat) : Permutation l (sorted l).
Proof.
  induction l as [| x l IH]; simpl; [constructor |].
  eapply perm_trans; [apply perm_skip, IH | apply insort_perm].
Qed.

Lemma insort_hd (x y : nat) (l : list nat) :
  y <= x -> HdRel le y l -> HdRel le y (insort x l).
Proof.
  intros Hyx H. destruct l as [| z l]; simpl; [constructor; exact Hyx |].
  destruct (x <=? z); constructor; [exact Hyx | inversion H; assumption].
Qed.

Lemma insort_sorted (x : nat) (l : list nat) : Sorted le l -> Sorted le (insort x l).
Proof.
  induction 1 as [| y l Hs IH Hhd]; simpl; [repeat constructor |].
  destruct (Nat.leb_spec x y) as [Hle | Hlt].
  - constructor; [constructor; assumption | constructor; exact Hle].
  - constructor; [exact IH | apply insort_hd; [lia | exact Hhd]].
Qed.

Lemma sorted_is_sorted (l : list nat) : Sorted le (sorted l).
Proof.
  induction l as [| x l IH]; simpl; [constructor | apply insort_sorted, IH].
Qed.

Lemma length_running (acc : Q) (ws : list Q) : length (running acc ws) = length ws.
Proof.
  revert acc. induction ws as [| x ws IH]; intros acc; simpl; [| rewrite IH]; reflexivity.
Qed.

Lemma length_accumulate (ws : list Q) : length (accumulate ws) = length ws.
Proof.
  destruct ws as [| x ws]; simpl; [| rewrite length_running]; reflexivity.
Qed.

Lemma last_running (ws : list Q) :
  forall acc, exists total,
    last_item (acc :: running acc ws) = inr total /\ (total == acc + Qsum ws)%Q.
Proof.
  unfold last_item.
  induction ws as [| x ws IH]; intros acc.
  - exists acc. split; [reflexivity | simpl; lra].
  - destruct (IH (acc + x)%Q) as (total & E & Ht).
    exists total. split.
    + change (rev (acc :: running acc (x :: ws)))
        with (rev ((acc + x)%Q :: running (acc + x)%Q ws) ++ [acc]).
      destruct (rev ((acc + x)%Q :: running (acc + x)%Q ws)) as [| t r];
        [discriminate E | exact E].
    + rewrite Ht. simpl. lra.
Qed.

(** The last running sum is the total weight. *)
Lemma last_accumulate (ws : list Q) :
  ws <> [] ->
  exists total, last_item (accumulate ws) = inr total /\ (total == Qsum ws)%Q.
Proof.
  destruct ws as [| x ws]; [congruence | intros _].
  destruct (last_running ws x) as (total & E & Ht).
  exists total. split; [exact E | rewrite Ht; reflexivity].
Qed.

(** All-zero weights have a zero total. *)
Lemma Qsum_all_zero (ws : list Q) : Forall (fun x => (x == 0)%Q) ws -> (Qsum ws == 0)%Q.
Proof.
  induction 1 as [| x ws Hx _ IH]; simpl; [reflexivity | rewrite Hx, IH; lra].
Qed.

(** The search ends between its bounds when every probe is inside [a]. *)
Lemma bisect_between (a : list Q) (x : Q) (lo hi : nat) :
  lo <= hi -> hi <= length a ->
  exists i, bisect a x lo hi = inr i /\ lo <= i <= hi.
Proof.
  funelim (bisect a x lo hi); intros Hlo Hhi.
  - exists lo. split; [reflexivity | lia].
  - exfalso.
    assert (Hmid : (lo + hi) / 2 < hi) by (apply Nat.Div0.div_lt_upper_bound; lia).
    unfold getitem in Heq.
    destruct (nth_error a ((lo + hi) / 2)) eqn:E; [discriminate Heq |].
    apply nth_error_None in E. lia.
  - assert (Hmid : (lo + hi) / 2 < hi) by (apply Nat.Div0.div_lt_upper_bound; lia).
    assert (Hmid' : lo <= (lo + hi) / 2) by (apply Nat.div_le_lower_bound; lia).
    destruct H as (i & E & Hi); [lia | lia |].
    exists i. split; [exact E | lia].
  - assert (Hmid : (lo + hi) / 2 < hi) by (apply Nat.Div0.div_lt_upper_bound; lia).
    assert (Hmid' : lo <= (lo + hi) / 2) by (apply Nat.div_le_lower_bound; lia).
    destruct H as (i & E & Hi); [lia | lia |].
    exists i. split; [exact E | lia].
Qed.

(** A comprehension whose body always succeeds and only consumes one
    random number runs [k] times. *)
Lemma comprehension_draws {A} (body : M A) (P : A -> Prop) :
  (forall w, exists x, body w = (advance 1 w, inr x) /\ P x) ->
  forall k w, exists xs,
    comprehension k body w = (advance k w, inr xs) /\ Forall P xs /\ length xs = k.
Proof.
  intros Hbody. induction k as [| k IH]; intros w.
  - exists []. repeat split; [| constructor].
    unfold advance. simpl. rewrite Nat.add_0_r. destruct w; reflexivity.
  - destruct (Hbody w) as (x & Ex & Px).
    destruct (IH (advance 1 w)) as (xs & Exs & Pxs & Hlen).
    exists (x :: xs). repeat split; [| constructor; assumption | simpl; congruence].
    simpl. unfold bind. rewrite Ex, Exs. unfold ret, advance. simpl.
    replace (cursor w + 1 + k) with (cursor w + S k) by lia. reflexivity.
Qed.

(** With a non-empty population, aligned weights and a positive total,
    [random.choices] returns [k] members of the population and consumes
    [k] random numbers. *)
Lemma choices_members (population : list nat) (weights : list Q) (k : nat) (w : world) :
  population <> [] ->
  length weights = length population ->
  (0 < Qsum weights)%Q ->
  exists drawn,
    choices population weights k w = (advance k w, inr drawn) /\
    Forall (fun i => In i population) drawn /\ length drawn = k.
Proof.
  intros Hne Hlen Htotal.
  assert (Hw : weights <> []) by (destruct weights, population; simpl in *; congruence).
  destruct (last_accumulate Hw) as (total & Elast & Ht).
  unfold choices. rewrite length_accumulate, Hlen, Nat.eqb_refl. simpl negb. cbv iota.
  unfold bind at 1. unfold lift at 1. rewrite Elast.
  assert (Epos : Qle_bool total 0 = false).
  { destruct (Qle_bool total 0) eqn:E; [| reflexivity].
    apply Qle_bool_iff in E. lra. }
  rewrite Epos.
  apply comprehension_draws. intros w1.
  destruct (@bisect_between (accumulate weights) (tape w1 (cursor w1) * total)%Q
              0 (length population - 1)) as (i & Ei & Hi).
  { lia. }
  { rewrite length_accumulate. lia. }
  destruct (nth_error population i) as [p |] eqn:Ep.
  - exists p. split.
    + unfold bind, random, lift, advance. simpl. rewrite Ei. unfold getitem. rewrite Ep.
      rewrite Nat.add_1_r. reflexivity.
    + eapply nth_error_In. exact Ep.
  - apply nth_error_None in Ep.
    assert (0 < length population) by (destruct population; simpl; [congruence | lia]).
    lia.
Qed.

(** C2, as stated: the sampler returns a strictly ascending sequence of
    [min k (length extent)] members of the extent.  It fails for the extent
    [7] with weight 1 and k = 2: the index 7 is drawn twice. *)
Lemma coronal_slices_repeats_index :
  ~ (forall (extent : list nat) (weights : list Q) (k : nat) (w : world),
       extent <> [] ->
       length weights = length extent ->
       Forall (fun x => (0 <= x)%Q) weights ->
       exists selected w',
         coronal_slices extent weights k w = (w', inr selected) /\
         Sorted lt selected /\
         incl selected extent /\
         length selected = Nat.min k (length extent)).
Proof.
  intros H.
  destruct (H [7] [1%Q] 2 quiet_world) as (selected & w' & E & _ & _ & Hlen).
  - discriminate.
  - reflexivity.
  - repeat constructor. discriminate.
  - vm_compute in E. injection E as _ <-. discriminate Hlen.
Qed.

(** C2, amended. For every non-empty extent with aligned weights of
    positive total and every k, the sampler draws WITH replacement: it
    returns a non-decreasing sequence of exactly k indices, each a member of
    the extent (repetitions allowed), after k calls of the random
    generator. *)
Theorem coronal_slices_sorted_members
  (extent : list nat) (weights : list Q) (k : nat) (w : world) :
  extent <> [] ->
  length weights = length extent ->
  (0 < Qsum weights)%Q ->
  exists selected,
    coronal_slices extent weights k w = (advance k w, inr selected) /\
    Sorted le selected /\
    incl selected extent /\
    length selected = k.
Proof.
  intros Hne Hlen Htotal.
  destruct (@choices_members extent weights k w Hne Hlen Htotal) as (drawn & E & Hin & Hk).
  exists (sorted drawn). split; [| split; [| split]].
  - unfold coronal_slices, bind. rewrite E. reflexivity.
  - apply sorted_is_sorted.
  - intros i Hi. rewrite Forall_forall in Hin. apply Hin.
    eapply Permutation_in; [apply Permutation_sym, sorted_perm | exact Hi].
  - rewrite <- Hk. apply Permutation_length, Permutation_sym, sorted_perm.
Qed.

Lemma coronal_slices_sorted_members_witness :
  ([10; 11; 12] <> [] /\
   length [1%Q; 4%Q; 2%Q] = length [10; 11; 12] /\
   (0 < Qsum [1%Q; 4%Q; 2%Q])%Q) /\
  exists selected,
    coronal_slices [10; 11; 12] [1%Q; 4%Q; 2%Q] 5 quiet_world
      = (advance 5 quiet_world, inr selected) /\
    Sorted le selected /\
    incl selected [10; 11; 12] /\
    length selected = 5.
Proof.
  split.
  - split; [discriminate | split; reflexivity].
  - apply (@coronal_slices_sorted_members [10; 11; 12] [1%Q; 4%Q; 2%Q] 5 quiet_world);
      [discriminate | reflexivity | reflexivity].
Defined.

(** The weights line succeeds on the indices that the extent finder kept,
    and every weight is nonzero. *)
Lemma slice_weights_of_kept (seg_ : ndarray) (l : list nat) :
  Forall (fun i => exists slice,
            index_axis2 seg_ i = inr slice /\ truthy (np_sum slice) = true) l ->
  exists ws,
    slice_weights seg_ l = inr ws /\
    length ws = length l /\
    Forall (fun x => ~ (x == 0)%Q) ws.
Proof.
  induction 1 as [| i l (slice & Ei & Hi) _ (ws & Ews & Hlen & Hws)].
  - exists []. repeat split; constructor.
  - exists (np_sum slice :: ws). simpl. rewrite Ei, Ews. simpl.
    repeat split; [congruence |].
    constructor; [| exact Hws].
    intros Hz. unfold truthy in Hi. rewrite (Qeq_eq_bool _ _ Hz) in Hi. discriminate Hi.
Qed.

Lemma slice_weights_nonzero (p : Patient) (tumor_range : list nat) :
  get_tumor_range p = inr tumor_range ->
  exists ws,
    slice_weights (seg p) tumor_range = inr ws /\
    length ws = length tumor_range /\
    Forall (fun x => ~ (x == 0)%Q) ws.
Proof.
  unfold get_tumor_range. intros H.
  destruct (shape_at (seg p) 3) as [e | n]; simpl in H; [discriminate H |].
  destruct (tumor_range_loop_filter _ _ _ H) as (kept & -> & ->).
  apply slice_weights_of_kept. simpl.
  apply Forall_forall. intros i Hi. apply filter_In in Hi. destruct Hi as [_ Hi].
  destruct (index_axis2 (seg p) i) as [e | slice]; [discriminate Hi |].
  exists slice. split; [reflexivity | exact Hi].
Qed.

(** C6, as stated: with all-zero weights on a non-empty extent the sampler
    still returns [min k (length extent)] distinct indices.  It fails for
    the extent [3; 5] with weights [0; 0] and k = 2: ValueError. *)
Lemma coronal_slices_zero_weights_no_fallback :
  ~ (forall (extent : list nat) (weights : list Q) (k : nat) (w : world),
       extent <> [] ->
       length weights = length extent ->
       Forall (fun x => (x == 0)%Q) weights ->
       exists selected w',
         coronal_slices extent weights k w = (w', inr selected) /\
         NoDup selected /\
         length selected = Nat.min k (length extent)).
Proof.
  intros H.
  destruct (H [3; 5] [0%Q; 0%Q] 2 quiet_world) as (selected & w' & E & _).
  - discriminate.
  - reflexivity.
  - repeat constructor.
  - vm_compute in E. discriminate E.
Qed.

(** C6, amended. For every non-empty extent whose aligned weights are all
    zero, the sampler raises ValueError before it draws anything: there is
    no division and no uniform fallback.  [make_images] never sends such
    weights: each weight it computes for an index of the extent is the
    nonzero slice sum that admitted the index. *)
Theorem coronal_slices_zero_weights
  (extent : list nat) (weights : list Q) (k : nat) (w : world) :
  extent <> [] ->
  length weights = length extent ->
  Forall (fun x => (x == 0)%Q) weights ->
  coronal_slices extent weights k w = (w, inl ValueError) /\
  (forall (p : Patient) (tumor_range : list nat),
     get_tumor_range p = inr tumor_range ->
     exists ws,
       slice_weights (seg p) tumor_range = inr ws /\
       length ws = length tumor_range /\
       Forall (fun x => ~ (x == 0)%Q) ws).
Proof.
  intros Hne Hlen Hzero. split; [| exact slice_weights_nonzero].
  assert (Hw : weights <> []) by (destruct weights, extent; simpl in *; congruence).
  destruct (last_accumulate Hw) as (total & Elast & Ht).
  unfold coronal_slices, choices, bind.
  rewrite length_accumulate, Hlen, Nat.eqb_refl. simpl negb. cbv iota.
  unfold lift at 1. rewrite Elast.
  assert (Ezero : Qle_bool total 0 = true).
  { apply Qle_bool_iff. rewrite Ht, (Qsum_all_zero Hzero). lra. }
  rewrite Ezero. reflexivity.
Qed.

Lemma coronal_slices_zero_weights_witness :
  ([3; 5] <> [] /\
   length [0%Q; 0%Q] = length [3; 5] /\
   Forall (fun x => (x == 0)%Q) [0%Q; 0%Q]) /\
  coronal_slices [3; 5] [0%Q; 0%Q] 2 quiet_world = (quiet_world, inl ValueError) /\
  (forall (p : Patient) (tumor_range : list nat),
     get_tumor_range p = inr tumor_range ->
     exists ws,
       slice_weights (seg p) tumor_range = inr ws /\
       length ws = length tumor_range /\
       Forall (fun x => ~ (x == 0)%Q) ws).
Proof.
  split.
  - split; [discriminate | split; [reflexivity | repeat constructor]].
  - apply (@coronal_slices_zero_weights [3; 5] [0%Q; 0%Q] 2 quiet_world);
      [discriminate | reflexivity | repeat constructor].
Defined.

(** C7, as stated: with an empty extent the sampler returns the empty
    sequence.  It fails already for k = 5: the sampler raises. *)
Lemma coronal_slices_empty_extent_no_result :
  ~ (forall (k : nat) (w : world),
       exists w', coronal_slices [] [] k w = (w', inr [])).
Proof.
  intros H. destruct (H 5 quiet_world) as (w' & E). discriminate E.
Qed.

(** C7, amended. For every k, with an empty extent the sampler raises
    IndexError (from [random.choices], on the last of no running sums)
    without drawing anything, and so does [make_images] on a volume
    without tumor: no figure is made and the exception propagates. *)
Theorem coronal_slices_empty_extent_raises
  (RdYlBu : Q -> rgba) (predicted_seg : ndarray) (dice : Q) (k : nat) (w : world) :
  coronal_slices [] [] k w = (w, inl IndexError) /\
  get_tumor_range (patient_with tumor_free tumor_free) = inr [] /\
  make_images RdYlBu (patient_with tumor_free tumor_free) predicted_seg "out" dice k w
    = (w, inl IndexError).
Proof.
  repeat split; reflexivity.
Qed.

(** ** Reporter *)

Lemma sqrt_floor_zero (q : Q) : (q == 0)%Q -> (sqrt_floor q == 0)%Q.
Proof.
  unfold Qeq, sqrt_floor. simpl. intros H.
  rewrite Z.mul_1_r in H. rewrite H. reflexivity.
Qed.

(** C8. On the empty score list [log_metrics] raises the ValueError of
    [np.min] and logs nothing, although mean and standard deviation have
    evaluated to nan; on the list [0.5] it logs mean 0.5, standard
    deviation 0, minimum 0.5 and maximum 0.5. *)
Theorem log_metrics_empty_and_singleton (np_sqrt : Q -> Q) (name : string) (w : world) :
  (forall q, (q == 0)%Q -> (np_sqrt q == 0)%Q) ->
  (np_mean [] = NaN /\ np_std np_sqrt [] = NaN /\
   log_metrics np_sqrt [] name w = (w, inl ValueError)) /\
  exists mean_dice std_dice,
    log_metrics np_sqrt [(1 # 2)%Q] name w
    = ({| tape := tape w; cursor := cursor w;
          trace := trace w ++
            [LogInfo (EvaluationComplete name);
             LogInfo (MeanDice (Finite mean_dice));
             LogInfo (StdDice (Finite std_dice));
             LogInfo (MinDice (1 # 2));
             LogInfo (MaxDice (1 # 2))] |},
       inr tt) /\
    (mean_dice == 1 # 2)%Q /\ (std_dice == 0)%Q.
Proof.
  intros Hsqrt. split; [repeat split; reflexivity |].
  do 2 eexists. split; [| split].
  - unfold log_metrics, info, emit, bind, lift. simpl.
    rewrite <- !app_assoc. simpl. reflexivity.
  - reflexivity.
  - apply Hsqrt. reflexivity.
Qed.

Lemma log_metrics_empty_and_singleton_witness :
  (forall q, (q == 0)%Q -> (sqrt_floor q == 0)%Q) /\
  (np_mean [] = NaN /\ np_std sqrt_floor [] = NaN /\
   log_metrics sqrt_floor [] "unnamed" quiet_world = (quiet_world, inl ValueError)) /\
  exists mean_dice std_dice,
    log_metrics sqrt_floor [(1 # 2)%Q] "unnamed" quiet_world
    = ({| tape := tape quiet_world; cursor := cursor quiet_world;
          trace := trace quiet_world ++
            [LogInfo (EvaluationComplete "unnamed");
             LogInfo (MeanDice (Finite mean_dice));
             LogInfo (StdDice (Finite std_dice));
             LogInfo (MinDice (1 # 2));
             LogInfo (MaxDice (1 # 2))] |},
       inr tt) /\
    (mean_dice == 1 # 2)%Q /\ (std_dice == 0)%Q.
Proof.
  split; [exact sqrt_floor_zero |].
  apply (@log_metrics_empty_and_singleton sqrt_floor "unnamed" quiet_world).
  exact sqrt_floor_zero.
Defined.

(** ** Partition evaluator *)

Section Traces.

Variable P : event -> Prop.

Lemma only_emits_ret {A} (a : A) : only_emits P (ret a).
Proof. intros w. exists []. rewrite app_nil_r. split; [reflexivity | constructor]. Qed.

Lemma only_emits_raise {A} (e : exn) : only_emits P (@raise A e).
Proof. intros w. exists []. rewrite app_nil_r. split; [reflexivity | constructor]. Qed.

Lemma only_emits_lift {A} (r : result A) : only_emits P (lift r).
Proof. intros w. exists []. rewrite app_nil_r. split; [reflexivity | constructor]. Qed.

Lemma only_emits_random : only_emits P random.
Proof. intros w. exists []. rewrite app_nil_r. split; [reflexivity | constructor]. Qed.

Lemma only_emits_emit (e : event) : P e -> only_emits P (emit e).
Proof. intros He w. exists [e]. split; [reflexivity | repeat constructor; exact He]. Qed.

Lemma only_emits_bind {A B} (m : M A) (k : A -> M B) :
  only_emits P m -> (forall a, only_emits P (k a)) -> only_emits P (bind m k).
Proof.
  intros Hm Hk w. unfold bind.
  destruct (Hm w) as (new1 & E1 & F1).
  destruct (m w) as [w1 [e | a]]; simpl in E1.
  - exists new1. split; assumption.
  - destruct (Hk a w1) as (new2 & E2 & F2).
    exists (new1 ++ new2). rewrite E2, E1, app_assoc.
    split; [reflexivity | apply Forall_app; split; assumption].
Qed.

Lemma only_emits_comprehension {A} (k : nat) (body : M A) :
  only_emits P body -> only_emits P (comprehension k body).
Proof.
  intros Hbody. induction k as [| k IH]; simpl.
  - apply only_emits_ret.
  - apply only_emits_bind; [exact Hbody | intros x].
    apply only_emits_bind; [exact IH | intros xs]. apply only_emits_ret.
Qed.

Lemma only_emits_for_each {A} (xs : list A) (body : A -> M unit) :
  (forall x, only_emits P (body x)) -> only_emits P (for_each xs body).
Proof.
  intros Hbody. induction xs as [| x xs IH]; simpl.
  - apply only_emits_ret.
  - apply only_emits_bind; [apply Hbody | intros _; exact IH].
Qed.

End Traces.

(** Splits a computation at its binds and closes the leaves; calls of
    other functions of the pipeline are left to their own lemmas. *)
Ltac trace_steps :=
  cbv zeta;
  repeat match goal with
    | |- only_emits _ (bind _ _) => apply only_emits_bind; [| intros ?]
    | |- only_emits _ (for_each _ _) => apply only_emits_for_each; intros ?
    | |- only_emits _ (comprehension _ _) => apply only_emits_comprehension
    | |- only_emits _ (emit _) => apply only_emits_emit; first [exact I | reflexivity]
    | |- only_emits _ (ret _) => apply only_emits_ret
    | |- only_emits _ (raise _) => apply only_emits_raise
    | |- only_emits _ (lift _) => apply only_emits_lift
    | |- only_emits _ random => apply only_emits_random
    | |- only_emits _ (if ?c then _ else _) => destruct c
    end.

(** *** Every run of [make_image] ends in [imshow] *)

Lemma shape_Normalize (vmin vmax : Q) (a b : ndarray) :
  Normalize vmin vmax a = inr b -> shape b = shape a.
Proof.
  unfold Normalize. intros H.
  destruct (Qeq_bool vmin vmax); [injection H as <-; reflexivity |].
  destruct (Qltb vmax vmin); [discriminate H | injection H as <-; reflexivity].
Qed.

Lemma shape_set_last_channel (a rhs b : ndarray) :
  set_last_channel a rhs = inr b -> shape b = shape a.
Proof.
  unfold set_last_channel. intros H.
  destruct (rev (shape a)) as [| c front]; [discriminate H |].
  destruct (c =? 0); [discriminate H |].
  destruct (broadcast_to rhs (rev front)); simpl in H;
    [discriminate H | injection H as <-; reflexivity].
Qed.

(** A displayed slice has at least two axes. *)
Lemma ndim_display_slice (a d : ndarray) (i : nat) :
  display_slice a i = inr d -> 2 <= ndim d.
Proof.
  unfold display_slice. intros H.
  destruct (index_axis1 a i) as [e | s]; [discriminate H |].
  change (flip_first (transpose s) = inr d) in H.
  unfold flip_first in H.
  destruct (shape (transpose s)) as [| n [| m rest]] eqn:Es; try discriminate H.
  inversion H; subst. unfold ndim. simpl. lia.
Qed.

Lemma imshow_four_axes (X : ndarray) : 4 <= ndim X -> imshow X = inl TypeError.
Proof.
  unfold imshow, ndim. intros H.
  destruct (shape X) as [| a [| b [| c [| d rest]]]]; simpl in H; try lia; reflexivity.
Qed.

(** The right overlay always has at least four axes, so that the last
    [imshow] raises if nothing has raised before: [make_image] never
    returns and never reaches [savefig]. *)
Lemma make_image_raises (RdYlBu : Q -> rgba) (p : Patient) (segmentation : ndarray)
  (coronal_index : nat) (dice : Q) (output_dir : string) (w : world) :
  exists e,
    make_image RdYlBu p segmentation coronal_index dice output_dir w = (w, inl e).
Proof.
  unfold make_image, bind, lift.
  destruct (display_slice (flair p) coronal_index) as [e | _img];
    [exists e; reflexivity |].
  destruct (display_slice (to_single_class (seg p) (1 # 2)) coronal_index)
    as [e | _seg] eqn:Eseg; [exists e; reflexivity |].
  cbv zeta.
  destruct (Normalize 0 1 _seg) as [e | scaled] eqn:En; [exists e; reflexivity |].
  destruct (set_last_channel (cmap RdYlBu scaled) _seg) as [e | colors] eqn:Ec;
    [exists e; reflexivity |].
  destruct (imshow _img) as [e | []]; [exists e; reflexivity |].
  destruct (imshow colors) as [e | []]; [exists e; reflexivity |].
  destruct (Normalize 0 1 segmentation) as [e | unused]; [exists e; reflexivity |].
  destruct (set_last_channel (cmap RdYlBu colors) segmentation) as [e | colors_p] eqn:Ep;
    [exists e; reflexivity |].
  assert (H4 : 4 <= ndim colors_p).
  { pose proof (ndim_display_slice _ _ Eseg) as H2.
    apply shape_Normalize in En. apply shape_set_last_channel in Ec, Ep.
    unfold ndim in *. rewrite Ep. simpl. rewrite length_app, Ec. simpl.
    rewrite length_app, En. simpl. lia. }
  rewrite (imshow_four_axes _ H4). exists TypeError. reflexivity.
Qed.

(** *** Computations that cannot complete *)

Lemma stops_with_bind_l {A B} (P : event -> Prop) (m : M A) (k : A -> M B) :
  stops_with P m -> stops_with P (bind m k).
Proof.
  intros Hm w. unfold bind. destruct (Hm w) as (new & e & E & F & R).
  destruct (m w) as [w1 [e1 | a]]; simpl in E, R; [| discriminate R].
  exists new, e1. repeat split; assumption.
Qed.

(** The continuation stops for every value that the first part can
    return. *)
Lemma stops_with_bind_r {A B} (P : event -> Prop) (Q : A -> Prop)
  (m : M A) (k : A -> M B) :
  only_emits P m ->
  (forall w w' a, m w = (w', inr a) -> Q a) ->
  (forall a, Q a -> stops_with P (k a)) ->
  stops_with P (bind m k).
Proof.
  intros Hm HQ Hk w. unfold bind. destruct (Hm w) as (new1 & E1 & F1).
  destruct (m w) as [w1 [e | a]] eqn:Em; simpl in E1.
  - exists new1, e. repeat split; assumption.
  - destruct (Hk a (HQ _ _ _ Em) w1) as (new2 & e & E2 & F2 & R2).
    exists (new1 ++ new2), e. rewrite E2, E1, app_assoc.
    repeat split; [apply Forall_app; split; assumption | exact R2].
Qed.

Lemma stops_with_make_image (P : event -> Prop) (RdYlBu : Q -> rgba) (p : Patient)
  (segmentation : ndarray) (coronal_index : nat) (dice : Q) (output_dir : string) :
  stops_with P (make_image RdYlBu p segmentation coronal_index dice output_dir).
Proof.
  intros w.
  destruct (make_image_raises RdYlBu p segmentation coronal_index dice output_dir w)
    as (e & E).
  exists [], e. rewrite E. simpl. rewrite app_nil_r. repeat split. constructor.
Qed.

Lemma comprehension_length {A} (body : M A) (k : nat) :
  forall w w' xs, comprehension k body w = (w', inr xs) -> length xs = k.
Proof.
  induction k as [| k IH]; intros w w' xs H; simpl in H.
  - injection H as _ <-. reflexivity.
  - unfold bind in H. destruct (body w) as [w1 [e | x]]; [discriminate H |].
    destruct (comprehension k body w1) as [w2 [e | xs']] eqn:E; [discriminate H |].
    injection H as _ <-. simpl. f_equal. eapply IH, E.
Qed.

Lemma choices_length (population : list nat) (weights : list Q) (k : nat)
  (w w' : world) (drawn : list nat) :
  choices population weights k w = (w', inr drawn) -> length drawn = k.
Proof.
  unfold choices. intros H.
  destruct (negb (length (accumulate weights) =? length population));
    [discriminate H |].
  unfold bind at 1 in H. unfold lift at 1 in H.
  destruct (last_item (accumulate weights)) as [e | total]; [discriminate H |].
  destruct (Qle_bool total 0); [discriminate H |].
  eapply comprehension_length, H.
Qed.

(** A selection that returns holds as many indices as were asked for. *)
Lemma coronal_slices_length (tumor_range : list nat) (weights : list Q) (k : nat)
  (w w' : world) (selected : list nat) :
  coronal_slices tumor_range weights k w = (w', inr selected) -> length selected = k.
Proof.
  unfold coronal_slices, bind. intros H.
  destruct (choices tumor_range weights k w) as [w1 [e | drawn]] eqn:E;
    [discriminate H |].
  injection H as _ <-.
  rewrite <- (choices_length _ _ _ _ E).
  apply Permutation_length, Permutation_sym, sorted_perm.
Qed.

Lemma only_emits_coronal_slices (P : event -> Prop) (tumor_range : list nat)
  (weights : list Q) (k : nat) :
  only_emits P (coronal_slices tumor_range weights k).
Proof. unfold coronal_slices, choices. trace_steps. Qed.

(** With at least one image to make, [make_images] cannot complete, and
    it appends no event. *)
Lemma stops_with_make_images (P : event -> Prop) (RdYlBu : Q -> rgba) (p : Patient)
  (predicted_seg : ndarray) (output_directory : string) (dice : Q) (num_images : nat) :
  1 <= num_images ->
  stops_with P (make_images RdYlBu p predicted_seg output_directory dice num_images).
Proof.
  intros Hk. unfold make_images.
  apply (@stops_with_bind_r _ _ P (fun _ => True));
    [apply only_emits_lift | intros; exact I | intros tumor_range _].
  apply (@stops_with_bind_r _ _ P (fun _ => True));
    [apply only_emits_lift | intros; exact I | intros weights _].
  apply (@stops_with_bind_r _ _ P (fun slices => length slices = num_images)).
  - apply only_emits_coronal_slices.
  - intros w w' slices H. eapply coronal_slices_length, H.
  - intros [| i rest] Hlen; [simpl in Hlen; lia |].
    simpl. apply stops_with_bind_l, stops_with_make_image.
Qed.

Lemma fetches_app (t1 t2 : list event) : fetches (t1 ++ t2) = fetches t1 ++ fetches t2.
Proof. unfold fetches. apply flat_map_app. Qed.

Lemma fetches_notes (t : list event) : Forall patient_note t -> fetches t = [].
Proof.
  induction 1 as [| e t He _ IH]; [reflexivity |].
  destruct e; simpl in *; solve [exact IH | contradiction].
Qed.

(** What is left to do for a patient who has been looked up: at most the
    score is logged, then something raises, at the latest [make_images]. *)
Lemma stops_with_patient_body (RdYlBu : Q -> rgba) (brats : DataSet)
  (run_model : ndarray -> result ndarray) (id_ : string) (rest : list string)
  (out_dir : string) (dice_coefficients : list Q) (patient_ : Patient) :
  stops_with patient_note
    (pred <- lift (get_segmentation run_model (mri patient_)) ;;
     cropped <- lift (_crop (seg patient_)) ;;
     let truth := to_single_class cropped (1 # 2) in
     dice <- lift (dice_coefficient pred truth default_smooth) ;;
     info (PatientDice id_ dice) ;;;
     let dice_coefficients := dice_coefficients ++ [dice] in
     make_images RdYlBu patient_ pred out_dir dice 5 ;;;
     drop_cache ;;;
     patients_loop RdYlBu brats run_model rest out_dir dice_coefficients).
Proof.
  cbv zeta. unfold info.
  apply (@stops_with_bind_r _ _ _ (fun _ => True));
    [apply only_emits_lift | intros; exact I | intros pred _].
  apply (@stops_with_bind_r _ _ _ (fun _ => True));
    [apply only_emits_lift | intros; exact I | intros cropped _].
  apply (@stops_with_bind_r _ _ _ (fun _ => True));
    [apply only_emits_lift | intros; exact I | intros dice _].
  apply (@stops_with_bind_r _ _ _ (fun _ => True));
    [apply only_emits_emit; exact I | intros; exact I | intros _ _].
  apply stops_with_bind_l, stops_with_make_images. lia.
Qed.

Lemma bind_emit {A} (e0 : event) (k : unit -> M A) (w : world) :
  bind (emit e0) k w
  = k tt {| tape := tape w; cursor := cursor w; trace := trace w ++ [e0] |}.
Proof. reflexivity. Qed.

Lemma bind_raised {A B} (m : M A) (k : A -> M B) (w : world) (e : exn) :
  snd (m w) = inl e -> bind m k w = (fst (m w), inl e).
Proof.
  unfold bind. destruct (m w) as [w1 [e1 | a]]; simpl; intros H;
    [injection H as ->; reflexivity | discriminate H].
Qed.

(** The loop looks up its first patient through the training split and
    never gets to a second one. *)
Lemma patients_loop_first_patient (RdYlBu : Q -> rgba) (brats : DataSet)
  (run_model : ndarray -> result ndarray) (id_ : string) (rest : list string)
  (out_dir : string) (dice_coefficients : list Q) (w : world) :
  exists notes e,
    trace (fst (patients_loop RdYlBu brats run_model (id_ :: rest) out_dir
                  dice_coefficients w))
    = trace w ++ Fetch Train id_ :: notes /\
    Forall patient_note notes /\
    snd (patients_loop RdYlBu brats run_model (id_ :: rest) out_dir dice_coefficients w)
    = inl e.
Proof.
  set (w1 := {| tape := tape w; cursor := cursor w; trace := trace w ++ [Fetch Train id_] |}).
  assert (Hw1 : forall notes, trace w1 ++ notes = trace w ++ Fetch Train id_ :: notes).
  { intros notes. unfold w1. simpl. rewrite <- app_assoc. reflexivity. }
  destruct (patient_of brats Train id_) as [e | patient_] eqn:Ep.
  - exists [], e. rewrite <- Hw1, app_nil_r.
    simpl patients_loop. unfold patient, bind, emit, lift. rewrite Ep.
    repeat split. constructor.
  - destruct (@stops_with_patient_body RdYlBu brats run_model id_ rest out_dir
                dice_coefficients patient_ w1) as (notes & e & E & F & R).
    exists notes, e. rewrite <- Hw1.
    simpl patients_loop. unfold patient. unfold bind at 1. unfold bind at 1.
    unfold emit at 1. unfold lift at 1. rewrite Ep.
    split; [exact E | split; [exact F | exact R]].
Qed.

(** The partition evaluator creates its directory, looks up the first
    identifier of the partition, if there is one, through the training
    split, logs at most that patient's score, and raises. *)
Lemma make_histograms_and_images_stops (RdYlBu : Q -> rgba) (np_sqrt : Q -> Q)
  (brats : DataSet) (run_model : ndarray -> result ndarray)
  (patient_ids : list string) (output_dir name : string) (w : world) :
  exists notes e,
    trace (fst (make_histograms_and_images RdYlBu np_sqrt brats run_model patient_ids
                  output_dir name w))
    = trace w ++ Mkdir (path_join output_dir name)
                 :: map (Fetch Train) (firstn 1 patient_ids) ++ notes /\
    Forall patient_note notes /\
    snd (make_histograms_and_images RdYlBu np_sqrt brats run_model patient_ids
           output_dir name w) = inl e.
Proof.
  destruct patient_ids as [| id_ rest].
  - exists [], ValueError. repeat split. constructor.
  - unfold make_histograms_and_images. cbv zeta. rewrite bind_emit.
    set (w1 := {| tape := tape w; cursor := cursor w;
                  trace := trace w ++ [Mkdir (path_join output_dir name)] |}).
    destruct (patients_loop_first_patient RdYlBu brats run_model id_ rest
                (path_join output_dir name) [] w1) as (notes & e & E & F & R).
    exists notes, e. rewrite (bind_raised _ _ _ R). cbn [fst snd].
    rewrite E. unfold w1. simpl. rewrite <- app_assoc.
    repeat split. exact F.
Qed.

(** [evaluate] announces the test partition and stops in it. *)
Lemma evaluate_stops (RdYlBu : Q -> rgba) (np_sqrt : Q -> Q)
  (brats : DataSet) (train_ids test_ids validation_ids : list string)
  (run_model : ndarray -> result ndarray) (output_dir : string) (w : world) :
  exists notes e,
    trace (fst (evaluate RdYlBu np_sqrt brats (train_ids, test_ids, validation_ids)
                  run_model output_dir w))
    = trace w ++ LogInfo (Plain "Evaluating test data...")
                 :: Mkdir (path_join output_dir "unnamed")
                 :: map (Fetch Train) (firstn 1 test_ids) ++ notes /\
    Forall patient_note notes /\
    snd (evaluate RdYlBu np_sqrt brats (train_ids, test_ids, validation_ids)
           run_model output_dir w) = inl e.
Proof.
  unfold evaluate, info. rewrite bind_emit.
  set (w1 := {| tape := tape w; cursor := cursor w;
                trace := trace w ++ [LogInfo (Plain "Evaluating test data...")] |}).
  destruct (make_histograms_and_images_stops RdYlBu np_sqrt brats run_model test_ids
              output_dir "unnamed" w1) as (notes & e & E & F & R).
  exists notes, e. rewrite (bind_raised _ _ _ R). cbn [fst snd].
  rewrite E. unfold w1. simpl. rewrite <- app_assoc.
  repeat split. exact F.
Qed.

Lemma fetches_first (ids : list string) (notes : list event) :
  Forall patient_note notes ->
  fetches (map (Fetch Train) (firstn 1 ids) ++ notes) = map (pair Train) (firstn 1 ids).
Proof.
  intros H. rewrite fetches_app, (fetches_notes H), app_nil_r.
  destruct ids as [| i rest]; reflexivity.
Qed.

(** C10. Whatever partition and whatever name the partition evaluator is
    given, the one lookup it makes is that of the first identifier of the
    partition, through the training split [brats.train.patient]; no run
    gets to a second lookup, because the work on the first patient always
    raises.  In [evaluate] this is the lookup of the first test
    identifier. *)
Theorem evaluate_fetches_from_train (RdYlBu : Q -> rgba) (np_sqrt : Q -> Q)
  (brats : DataSet) (patient_ids train_ids test_ids validation_ids : list string)
  (run_model : ndarray -> result ndarray) (output_dir name : string) (w : world) :
  (exists new,
     trace (fst (make_histograms_and_images RdYlBu np_sqrt brats run_model patient_ids
                   output_dir name w))
     = trace w ++ new /\
     fetches new = map (pair Train) (firstn 1 patient_ids)) /\
  (exists new,
     trace (fst (evaluate RdYlBu np_sqrt brats (train_ids, test_ids, validation_ids)
                   run_model output_dir w))
     = trace w ++ new /\
     fetches new = map (pair Train) (firstn 1 test_ids)).
Proof.
  split.
  - destruct (make_histograms_and_images_stops RdYlBu np_sqrt brats run_model
                patient_ids output_dir name w) as (notes & e & E & F & _).
    eexists. split; [exact E |].
    change (fetches (Mkdir (path_join output_dir name)
                       :: map (Fetch Train) (firstn 1 patient_ids) ++ notes))
      with (fetches (map (Fetch Train) (firstn 1 patient_ids) ++ notes)).
    apply fetches_first, F.
  - destruct (evaluate_stops RdYlBu np_sqrt brats train_ids test_ids validation_ids
                run_model output_dir w) as (notes & e & E & F & _).
    eexists. split; [exact E |].
    change (fetches (LogInfo (Plain "Evaluating test data...")
                       :: Mkdir (path_join output_dir "unnamed")
                       :: map (Fetch Train) (firstn 1 test_ids) ++ notes))
      with (fetches (map (Fetch Train) (firstn 1 test_ids) ++ notes)).
    apply fetches_first, F.
Qed.

(** * Further properties of the pipeline *)

(** ** Overlap metric: symmetry and the value one *)

Lemma logical_and_comm (xs ys : list Q) : logical_and xs ys = logical_and ys xs.
Proof.
  unfold logical_and.
  destruct (Nat.eqb_spec (length xs) (length ys)) as [E | N].
  - rewrite <- E, Nat.eqb_refl. f_equal.
    revert ys E. induction xs as [| x xs IH]; intros [| y ys] E; simpl in *;
      try discriminate; [reflexivity |].
    rewrite andb_comm. f_equal. apply IH. congruence.
  - destruct (Nat.eqb_spec (length ys) (length xs)) as [E' | _]; [congruence |].
    destruct xs as [| x [| x' xs]], ys as [| y [| y' ys]];
      try (exfalso; simpl in *; congruence);
      cbv iota beta;
      try reflexivity;
      f_equal; apply map_ext; intros; apply andb_comm.
Qed.

(** X1. Swapping prediction and ground truth leaves the outcome of
    [dice_coefficient] unchanged, whatever the two arrays are: the same
    exception, or equal values. *)
Theorem dice_coefficient_symmetric (pred truth : ndarray) (smooth : Q) :
  match dice_coefficient pred truth smooth, dice_coefficient truth pred smooth with
  | inr d1, inr d2 => (d1 == d2)%Q
  | inl e1, inl e2 => e1 = e2
  | _, _ => False
  end.
Proof.
  unfold dice_coefficient, ravel.
  rewrite (logical_and_comm (data truth) (data pred)).
  destruct (logical_and (data pred) (data truth)) as [e | l]; simpl; [reflexivity |].
  rewrite (Qplus_comm (np_sum truth) (np_sum pred)). reflexivity.
Qed.

Lemma both_nonzero_cons (x y : Q) (xs ys : list Q) :
  both_nonzero (x :: xs) (y :: ys)
  = (if negb (Qeq_bool x 0) && negb (Qeq_bool y 0) then 1 else 0) + both_nonzero xs ys.
Proof.
  unfold both_nonzero. simpl.
  destruct (negb (Qeq_bool x 0) && negb (Qeq_bool y 0)); reflexivity.
Qed.

(** Twice the overlap equals the sum of the values only when the two
    binarized sequences agree everywhere. *)
Lemma twice_overlap_eq_sums (xs : list Q) :
  forall ys, length xs = length ys -> Forall binary xs -> Forall binary ys ->
  ((2 * inject_Z (Z.of_nat (both_nonzero xs ys)) == Qsum xs + Qsum ys)%Q
   <-> Forall2 Qeq xs ys).
Proof.
  induction xs as [| x xs IH]; intros [| y ys] Hlen Hxs Hys; simpl in Hlen;
    try discriminate Hlen.
  - split; [constructor | intros _; reflexivity].
  - inversion Hxs as [| ? ? Hx Hxs']; inversion Hys as [| ? ? Hy Hys']; subst.
    injection Hlen as Hlen.
    pose proof (twice_overlap_le_sums Hlen Hxs' Hys') as Hle.
    specialize (IH ys Hlen Hxs' Hys').
    rewrite both_nonzero_cons.
    change (Qsum (x :: xs)) with (x + Qsum xs)%Q.
    change (Qsum (y :: ys)) with (y + Qsum ys)%Q.
    pose proof (inject_nat_S (both_nonzero xs ys)) as HS.
    destruct Hx as [Hx | Hx], Hy as [Hy | Hy];
      repeat match goal with
        | H : (?v == 0)%Q |- context [Qeq_bool ?v 0] => rewrite (Qeq_bool_zero H)
        | H : (?v == 1)%Q |- context [Qeq_bool ?v 0] => rewrite (Qeq_bool_one H)
        end;
      cbn [negb andb Nat.add];
      (split;
       [ intros H; first [ constructor; [lra | apply IH; lra] | exfalso; lra ]
       | intros H; inversion H as [| ? ? ? ? Hxy Htl]; subst;
         first [ apply IH in Htl; lra | exfalso; lra ] ]).
Qed.

(** The value and the bounds of the coefficient of two binarized
    sequences of the same length. *)
Lemma dice_coefficient_same_length (pred truth : ndarray) (smooth : Q) :
  length (data pred) = length (data truth) ->
  binarized pred -> binarized truth -> (0 < smooth)%Q ->
  dice_coefficient pred truth smooth
  = inr ((2 * inject_Z (Z.of_nat (both_nonzero (data pred) (data truth))) + smooth)
         / (np_sum pred + np_sum truth + smooth))%Q /\
  (2 * inject_Z (Z.of_nat (both_nonzero (data pred) (data truth)))
   <= np_sum pred + np_sum truth)%Q /\
  (0 <= inject_Z (Z.of_nat (both_nonzero (data pred) (data truth))))%Q /\
  (0 < np_sum pred + np_sum truth + smooth)%Q.
Proof.
  intros Hlen Bp Bt Hs.
  pose proof (Qsum_binary_nonneg Bp) as Pp.
  pose proof (Qsum_binary_nonneg Bt) as Pt.
  split; [| split; [| split]].
  - unfold dice_coefficient, ravel.
    rewrite (logical_and_same_length _ _ Hlen). simpl.
    rewrite count_true_both_nonzero. reflexivity.
  - apply twice_overlap_le_sums; assumption.
  - change 0%Q with (inject_Z 0). rewrite <- Zle_Qle. lia.
  - unfold np_sum. lra.
Qed.

(** X2. For binarized masks with equally many elements and a positive
    smoothing constant, [dice_coefficient] is one exactly when the two
    masks agree at every position. *)
Theorem dice_coefficient_one_iff_equal (pred truth : ndarray) (smooth : Q) :
  length (data pred) = length (data truth) ->
  binarized pred -> binarized truth -> (0 < smooth)%Q ->
  exists d : Q,
    dice_coefficient pred truth smooth = inr d /\
    ((d == 1)%Q <-> Forall2 Qeq (data pred) (data truth)).
Proof.
  intros Hlen Bp Bt Hs.
  destruct (dice_coefficient_same_length Hlen Bp Bt Hs) as (E & Hle & Hn & Hden).
  eexists. split; [exact E |].
  rewrite <- (twice_overlap_eq_sums Hlen Bp Bt).
  set (num := (2 * inject_Z (Z.of_nat (both_nonzero (data pred) (data truth))))%Q) in *.
  unfold np_sum in *.
  set (den := (Qsum (data pred) + Qsum (data truth))%Q) in *.
  assert (Hnz : ~ (den + smooth == 0)%Q) by lra.
  split; intros H.
  - assert (E1 : (num + smooth == (num + smooth) / (den + smooth) * (den + smooth))%Q)
      by (field; exact Hnz).
    rewrite H in E1. lra.
  - assert (E1 : (num + smooth == den + smooth)%Q) by lra.
    rewrite E1. field. exact Hnz.
Qed.

Lemma dice_coefficient_one_iff_equal_witness :
  (length (data mask_101) = length (data mask_110) /\
   binarized mask_101 /\ binarized mask_110 /\ (0 < default_smooth)%Q) /\
  exists d : Q,
    dice_coefficient mask_101 mask_110 default_smooth = inr d /\
    ((d == 1)%Q <-> Forall2 Qeq (data mask_101) (data mask_110)).
Proof.
  assert (B1 : binarized mask_101)
    by (repeat constructor; (left; reflexivity) || (right; reflexivity)).
  assert (B2 : binarized mask_110)
    by (repeat constructor; (left; reflexivity) || (right; reflexivity)).
  split.
  - repeat split; solve [reflexivity | exact B1 | exact B2].
  - apply (@dice_coefficient_one_iff_equal mask_101 mask_110 default_smooth);
      solve [reflexivity | exact B1 | exact B2].
Defined.

(** ** Thresholder: what it returns *)

Lemma threshold_at_cases (threshold x : Q) :
  ((threshold <= x)%Q /\ threshold_at threshold x = 1%Q) \/
  ((x < threshold)%Q /\ threshold_at threshold x = 0%Q).
Proof.
  unfold threshold_at. destruct (Qle_bool threshold x) eqn:E.
  - left. split; [apply Qle_bool_iff, E | reflexivity].
  - right. split; [| reflexivity].
    apply Qnot_le_lt. intros H. apply Qle_bool_iff in H. congruence.
Qed.

(** X3. For every array and every threshold, [to_single_class] keeps the
    shape and the number of elements, and each element of the result is
    exactly 1 where the input reaches the threshold and exactly 0 where it
    stays below. *)
Theorem to_single_class_zero_one (seg_ : ndarray) (threshold : Q) :
  shape (to_single_class seg_ threshold) = shape seg_ /\
  Forall2 (fun x y => ((threshold <= x)%Q /\ y = 1%Q) \/ ((x < threshold)%Q /\ y = 0%Q))
          (data seg_) (data (to_single_class seg_ threshold)).
Proof.
  rewrite to_single_class_elementwise. simpl. split; [reflexivity |].
  induction (data seg_) as [| x xs IH]; simpl; constructor; [| exact IH].
  apply threshold_at_cases.
Qed.

Lemma to_single_class_binarized (seg_ : ndarray) (threshold : Q) :
  binarized (to_single_class seg_ threshold).
Proof.
  unfold binarized. rewrite to_single_class_elementwise. simpl.
  apply Forall_forall. intros y Hy. apply in_map_iff in Hy.
  destruct Hy as (x & <- & _).
  destruct (threshold_at_cases threshold x) as [[_ ->] | [_ ->]];
    [right | left]; reflexivity.
Qed.

Lemma to_single_class_length (seg_ : ndarray) (threshold : Q) :
  length (data (to_single_class seg_ threshold)) = length (data seg_).
Proof.
  rewrite to_single_class_elementwise. simpl. apply length_map.
Qed.

(** X4. Whatever the model output, the ground truth and the two thresholds
    are, if the two arrays hold equally many elements and the smoothing
    constant is positive, the coefficient of the two thresholded arrays is
    computed without error and lies in (0, 1]. *)
Theorem dice_of_thresholded_in_unit_interval
  (out truth : ndarray) (t_out t_truth smooth : Q) :
  length (data out) = length (data truth) ->
  (0 < smooth)%Q ->
  exists d : Q,
    dice_coefficient (to_single_class out t_out) (to_single_class truth t_truth) smooth
    = inr d /\
    (0 < d)%Q /\ (d <= 1)%Q.
Proof.
  intros Hlen Hs.
  destruct (@dice_coefficient_same_length
              (to_single_class out t_out) (to_single_class truth t_truth) smooth)
    as (E & Hle & Hn & Hden).
  - rewrite !to_single_class_length. exact Hlen.
  - apply to_single_class_binarized.
  - apply to_single_class_binarized.
  - exact Hs.
  - eexists. split; [exact E | split].
    + apply Qlt_shift_div_l; [exact Hden | lra].
    + apply Qle_shift_div_r; [exact Hden | lra].
Qed.

Lemma dice_of_thresholded_in_unit_interval_witness :
  (length (data scan_114) = length (data labels_124) /\ (0 < default_smooth)%Q) /\
  exists d : Q,
    dice_coefficient (to_single_class scan_114 (13 # 2)) (to_single_class labels_124 (1 # 2))
      default_smooth = inr d /\
    (0 < d)%Q /\ (d <= 1)%Q.
Proof.
  split.
  - split; reflexivity.
  - apply (@dice_of_thresholded_in_unit_interval
             scan_114 labels_124 (13 # 2) (1 # 2) default_smooth); reflexivity.
Defined.

Lemma threshold_half_of_label (v : Z) :
  threshold_at (1 # 2) (inject_Z v) = inject_Z (if (0 <? v)%Z then 1 else 0).
Proof.
  unfold threshold_at, Qle_bool, inject_Z. simpl.
  destruct (Z.leb_spec 1 (v * 2)), (Z.ltb_spec 0 v); try reflexivity; lia.
Qed.

(** X5. At the threshold 0.5 that the pipeline uses, [to_single_class]
    turns an integer-valued label volume into the mask of its positive
    labels: every label of at least 1 (the tumor classes 1, 2 and 4)
    becomes 1, every label of at most 0 becomes 0. *)
Theorem to_single_class_of_labels (s : list nat) (labels : list Z) :
  to_single_class (volume s labels) (1 # 2)
  = volume s (map (fun v => if (0 <? v)%Z then 1 else 0)%Z labels).
Proof.
  rewrite to_single_class_elementwise. unfold volume. simpl. f_equal.
  rewrite !map_map. apply map_ext. intros v. apply threshold_half_of_label.
Qed.

(** ** Tumor extent finder: when it returns and what it returns *)

Lemma index_axis2_returns (a : ndarray) (i : nat) :
  (exists slice, index_axis2 a i = inr slice)
  <-> (exists c, nth_error (shape a) 2 = Some c /\ i < c).
Proof.
  unfold index_axis2, take_axis.
  destruct (nth_error (shape a) 2) as [c |].
  - destruct (Nat.ltb_spec i c) as [Hlt | Hge]; split.
    + intros _. exists c. split; [reflexivity | exact Hlt].
    + intros _. eexists. reflexivity.
    + intros (slice & H). discriminate H.
    + intros (c' & E & Hlt). injection E as <-. lia.
  - split; [intros (slice & H); discriminate H | intros (c & E & _); discriminate E].
Qed.

Lemma index_axis2_raises (a : ndarray) (i : nat) (e : exn) :
  index_axis2 a i = inl e -> e = IndexError.
Proof.
  unfold index_axis2, take_axis.
  destruct (nth_error (shape a) 2) as [c |]; [destruct (i <? c) |];
    intros H; try discriminate H; injection H as <-; reflexivity.
Qed.

(** The loop returns exactly when every index of its range can be sliced,
    and raises nothing but IndexError. *)
Lemma tumor_range_loop_returns (seg_ : ndarray) (range_ : list nat) :
  forall acc,
    match tumor_range_loop seg_ range_ acc with
    | inr _ => Forall (fun i => exists slice, index_axis2 seg_ i = inr slice) range_
    | inl e => e = IndexError /\
               ~ Forall (fun i => exists slice, index_axis2 seg_ i = inr slice) range_
    end.
Proof.
  induction range_ as [| i rest IH]; intros acc; simpl; [constructor |].
  destruct (index_axis2 seg_ i) as [e | slice] eqn:E; simpl.
  - split; [eapply index_axis2_raises, E |].
    intros H. inversion H as [| ? ? (slice & Hs) _]; subst. congruence.
  - assert (Hi : exists s, index_axis2 seg_ i = inr s) by (exists slice; exact E).
    destruct (truthy (np_sum slice)).
    + specialize (IH (acc ++ [i])).
      destruct (tumor_range_loop seg_ rest (acc ++ [i])) as [e | l].
      * destruct IH as [-> IH]. split; [reflexivity |].
        intros H. inversion H; subst. apply IH. assumption.
      * constructor; [exact Hi | exact IH].
    + specialize (IH acc).
      destruct (tumor_range_loop seg_ rest acc) as [e | l].
      * destruct IH as [-> IH]. split; [reflexivity |].
        intros H. inversion H; subst. apply IH. assumption.
      * constructor; [exact Hi | exact IH].
Qed.

(** X6. [get_tumor_range] returns exactly when [patient.seg] has at least
    four axes and its fourth axis is not longer than its third; in every
    other case it raises IndexError, and it raises nothing else. *)
Theorem get_tumor_range_returns_iff (p : Patient) :
  ((exists tumor_range, get_tumor_range p = inr tumor_range)
   <-> (exists c d, nth_error (shape (seg p)) 2 = Some c /\
                    nth_error (shape (seg p)) 3 = Some d /\ d <= c)) /\
  ((exists tumor_range, get_tumor_range p = inr tumor_range) \/
   get_tumor_range p = inl IndexError).
Proof.
  unfold get_tumor_range, shape_at.
  destruct (nth_error (shape (seg p)) 3) as [d |] eqn:E3; simpl.
  - assert (E2 : exists c, nth_error (shape (seg p)) 2 = Some c).
    { destruct (nth_error (shape (seg p)) 2) as [c |] eqn:E2; [exists c; reflexivity |].
      apply nth_error_None in E2.
      assert (nth_error (shape (seg p)) 3 <> None) by congruence.
      apply nth_error_Some in H. lia. }
    destruct E2 as (c & E2).
    pose proof (tumor_range_loop_returns (seg p) (seq 0 d) []) as H.
    destruct (tumor_range_loop (seg p) (seq 0 d) []) as [e | l].
    + destruct H as [-> H]. split; [| right; reflexivity].
      split; [intros (l & Hl); discriminate Hl |].
      intros (c' & d' & E2' & E3' & Hle). exfalso. apply H.
      apply Forall_forall. intros i Hi. apply in_seq in Hi.
      apply index_axis2_returns. exists c'. split; [exact E2' |].
      injection E3' as <-. lia.
    + split; [| left; exists l; reflexivity].
      split; [intros _ | intros _; exists l; reflexivity].
      exists c, d. split; [exact E2 | split; [reflexivity |]].
      destruct d as [| d']; [lia |].
      rewrite Forall_forall in H.
      destruct (H d') as (slice & Hs); [apply in_seq; lia |].
      assert (Hex : exists s, index_axis2 (seg p) d' = inr s) by (exists slice; exact Hs).
      apply index_axis2_returns in Hex. destruct Hex as (c' & E2' & Hlt).
      rewrite E2 in E2'. injection E2' as <-. lia.
  - split; [| right; reflexivity].
    split; [intros (l & Hl); discriminate Hl |].
    intros (c & d & _ & E & _). discriminate E.
Qed.

Lemma seq_strongly_sorted (start len : nat) : StronglySorted lt (seq start len).
Proof.
  revert start. induction len as [| len IH]; intros start; simpl; constructor.
  - apply IH.
  - apply Forall_forall. intros i Hi. apply in_seq in Hi. lia.
Qed.

Lemma filter_strongly_sorted (f : nat -> bool) (l : list nat) :
  StronglySorted lt l -> StronglySorted lt (filter f l).
Proof.
  induction 1 as [| x l Hs IH Hx]; simpl; [constructor |].
  destruct (f x); [| exact IH].
  constructor; [exact IH |].
  rewrite Forall_forall in *. intros y Hy. apply filter_In in Hy. apply Hx, Hy.
Qed.

Lemma In_block (start len : nat) (l : list Q) (x : Q) :
  In x (block start len l) -> In x l.
Proof.
  unfold block. intros H.
  rewrite <- (firstn_skipn start l). apply in_or_app. right.
  rewrite <- (firstn_skipn len (skipn start l)). apply in_or_app. left. exact H.
Qed.

(** The elements of [a[:, :, i]] are elements of [a]. *)
Lemma In_index_axis2 (a slice : ndarray) (i : nat) (x : Q) :
  index_axis2 a i = inr slice -> In x (data slice) -> In x (data a).
Proof.
  unfold index_axis2, take_axis. intros H Hx.
  destruct (nth_error (shape a) 2) as [n |]; [| discriminate H].
  destruct (i <? n); [| discriminate H].
  inversion H; subst. simpl in Hx. apply in_flat_map in Hx.
  destruct Hx as (o & _ & Hx). eapply In_block, Hx.
Qed.

(** A sum of non-negative values is nonzero exactly when one of them is. *)
Lemma Qsum_nonzero_iff (l : list Q) :
  Forall (fun x => (0 <= x)%Q) l ->
  (~ (Qsum l == 0)%Q <-> exists x, In x l /\ ~ (x == 0)%Q).
Proof.
  induction 1 as [| x l Hx Hl IH]; simpl.
  - split; [intros H; exfalso; apply H; reflexivity | intros (x & [] & _)].
  - assert (Hs : (0 <= Qsum l)%Q).
    { clear IH. induction Hl as [| y l Hy _ IHl]; simpl; lra. }
    split.
    + intros H. destruct (Qeq_dec x 0) as [Hz | Hnz].
      * destruct IH as [IH _]. destruct IH as (y & Hy & Hny); [lra |].
        exists y. split; [right; exact Hy | exact Hny].
      * exists x. split; [left; reflexivity | exact Hnz].
    + intros (y & [<- | Hy] & Hny).
      * lra.
      * destruct IH as [_ IH]. assert (~ (Qsum l == 0)%Q) by (apply IH; eauto). lra.
Qed.

(** X7. For a label volume (integer values from 0 to 4, few enough for
    their sums to be exact in the array's number type), when
    [get_tumor_range] returns, its result is strictly ascending (so
    without repetition) and holds exactly the indices i below
    [seg.shape[3]] for which [seg[:, :, i]] holds a nonzero voxel. *)
Theorem get_tumor_range_result (p : Patient) (tumor_range : list nat) :
  Forall (fun x => exists z : Z, x = inject_Z z /\ (0 <= z <= 4)%Z) (data (seg p)) ->
  (Z.of_nat (length (data (seg p))) * 4 < 2 ^ 53)%Z ->
  get_tumor_range p = inr tumor_range ->
  exists n,
    shape_at (seg p) 3 = inr n /\
    StronglySorted lt tumor_range /\
    forall i,
      In i tumor_range
      <-> (i < n /\ exists slice,
             index_axis2 (seg p) i = inr slice /\
             exists x, In x (data slice) /\ ~ (x == 0)%Q).
Proof.
  unfold get_tumor_range. intros Hlabels _ H.
  destruct (shape_at (seg p) 3) as [e | n]; simpl in H; [discriminate H |].
  exists n. split; [reflexivity |].
  destruct (tumor_range_loop_filter _ _ _ H) as (kept & -> & ->). simpl.
  split; [apply filter_strongly_sorted, seq_strongly_sorted |].
  assert (Hslice : forall i slice,
             index_axis2 (seg p) i = inr slice ->
             (truthy (np_sum slice) = true
              <-> exists x, In x (data slice) /\ ~ (x == 0)%Q)).
  { intros i slice Es. unfold np_sum. rewrite <- Qsum_nonzero_iff.
    - unfold truthy. split.
      + intros Hf Hz. rewrite (Qeq_eq_bool _ _ Hz) in Hf. discriminate Hf.
      + intros Hnz. destruct (Qeq_bool (Qsum (data slice)) 0) eqn:E; [| reflexivity].
        apply Qeq_bool_eq in E. contradiction.
    - apply Forall_forall. intros x Hx.
      rewrite Forall_forall in Hlabels.
      destruct (Hlabels x (In_index_axis2 _ _ _ Es Hx)) as (z & -> & Hz).
      change 0%Q with (inject_Z 0). rewrite <- Zle_Qle. lia. }
  intros i. rewrite filter_In, in_seq. split.
  - intros [Hi Hf].
    destruct (index_axis2 (seg p) i) as [e | slice] eqn:Es; [discriminate Hf |].
    split; [lia |]. exists slice. split; [reflexivity |].
    apply (Hslice i slice Es), Hf.
  - intros [Hi (slice & Es & Hx)]. split; [lia |].
    rewrite Es. apply (Hslice i slice Es), Hx.
Qed.

Lemma get_tumor_range_result_witness :
  let p := patient_with tumor_off_axis tumor_off_axis in
  (Forall (fun x => exists z : Z, x = inject_Z z /\ (0 <= z <= 4)%Z) (data (seg p)) /\
   (Z.of_nat (length (data (seg p))) * 4 < 2 ^ 53)%Z /\
   get_tumor_range p = inr [0]) /\
  exists n,
    shape_at (seg p) 3 = inr n /\
    StronglySorted lt [0] /\
    forall i,
      In i [0]
      <-> (i < n /\ exists slice,
             index_axis2 (seg p) i = inr slice /\
             exists x, In x (data slice) /\ ~ (x == 0)%Q).
Proof.
  intros p.
  assert (Hlabels : Forall (fun x => exists z : Z, x = inject_Z z /\ (0 <= z <= 4)%Z)
                           (data (seg p))).
  { repeat constructor; [exists 0%Z | exists 0%Z | exists 1%Z | exists 0%Z];
      (split; [reflexivity | lia]). }
  assert (Hsize : (Z.of_nat (length (data (seg p))) * 4 < 2 ^ 53)%Z) by reflexivity.
  split; [split; [exact Hlabels | split; [exact Hsize | reflexivity]] |].
  apply (@get_tumor_range_result p [0] Hlabels Hsize). reflexivity.
Defined.

(** ** Row-major layout *)

Section Layout.

Variable A : Type.

Lemma length_flat_map_uniform (f : nat -> list A) (len : nat) (l : list nat) :
  (forall o, In o l -> length (f o) = len) ->
  length (flat_map f l) = length l * len.
Proof.
  induction l as [| o l IH]; intros H; simpl; [reflexivity |].
  rewrite length_app, H, IH; [reflexivity | | left; reflexivity].
  intros o' Ho'. apply H. right. exact Ho'.
Qed.

(** Position [o * len + j] of a concatenation of blocks of length [len]
    is position [j] of block [o]. *)
Lemma nth_flat_map_uniform (f : nat -> list A) (len : nat) (d : A) :
  forall n start o j,
    (forall k, start <= k < start + n -> length (f k) = len) ->
    o < n -> j < len ->
    nth (o * len + j) (flat_map f (seq start n)) d = nth j (f (start + o)) d.
Proof.
  induction n as [| n IH]; intros start o j Hlen Ho Hj; [lia |].
  simpl. destruct o as [| o].
  - simpl. rewrite app_nth1 by (rewrite Hlen; lia).
    rewrite Nat.add_0_r. reflexivity.
  - rewrite app_nth2 by (rewrite Hlen; [simpl | ]; lia).
    rewrite Hlen by lia.
    replace (S o * len + j - len) with (o * len + j) by (simpl; lia).
    rewrite IH; [| intros k Hk; apply Hlen; lia | lia | exact Hj].
    f_equal. f_equal. lia.
Qed.

End Layout.

Lemma length_block (start len : nat) (l : list Q) :
  start + len <= length l -> length (block start len l) = len.
Proof.
  intros H. unfold block. rewrite length_firstn, length_skipn. lia.
Qed.

Lemma nth_block (start len j : nat) (l : list Q) (d : Q) :
  j < len -> nth j (block start len l) d = nth (start + j) l d.
Proof.
  intros H. unfold block. rewrite nth_firstn.
  destruct (Nat.ltb_spec j len); [| lia].
  apply nth_skipn.
Qed.

Lemma size_of_app (s t : list nat) : size_of (s ++ t) = size_of s * size_of t.
Proof.
  unfold size_of. induction s as [| n s IH]; simpl; [lia |].
  rewrite IH. lia.
Qed.

Lemma length_indices (s : list nat) : length (indices s) = size_of s.
Proof.
  induction s as [| n s IH]; [reflexivity |].
  simpl indices. rewrite (@length_flat_map_uniform _ _ (size_of s)).
  - rewrite length_seq. reflexivity.
  - intros o _. rewrite length_map. exact IH.
Qed.

(** A multi-index within a shape has its position within the size. *)
Lemma offset_lt (s : list nat) :
  forall idx, Forall2 lt idx s -> offset s idx < size_of s.
Proof.
  induction s as [| n s IH]; intros idx H; inversion H; subst; simpl; [lia |].
  match goal with Ht : Forall2 lt _ s |- _ => specialize (IH _ Ht) end.
  change (fold_right Nat.mul 1 s) with (size_of s). nia.
Qed.

(** The multi-indices are listed at their own positions. *)
Lemma nth_indices (s : list nat) :
  forall idx d, Forall2 lt idx s -> nth (offset s idx) (indices s) d = idx.
Proof.
  induction s as [| n s IH]; intros idx d H; inversion H; subst; [reflexivity |].
  match goal with Ht : Forall2 lt _ s |- _ => rename Ht into Hs end.
  simpl offset. simpl indices.
  rewrite (@nth_flat_map_uniform _ _ (size_of s)).
  - simpl. rewrite (nth_indep _ d (x :: d)) by (rewrite length_map, length_indices;
                                                  apply offset_lt, Hs).
    rewrite map_nth. f_equal. apply IH, Hs.
  - intros k _. rewrite length_map. apply length_indices.
  - assumption.
  - apply offset_lt, Hs.
Qed.

(** The position of a multi-index whose last entry is split off. *)
Lemma offset_snoc (front : list nat) :
  forall idx n j,
    length idx = length front ->
    offset (front ++ [n]) (idx ++ [j]) = offset front idx * n + j.
Proof.
  induction front as [| m front IH]; intros [| i idx] n j Hlen; simpl in Hlen;
    try discriminate Hlen.
  - simpl. lia.
  - injection Hlen as Hlen. simpl. rewrite IH by exact Hlen.
    change (fold_right Nat.mul 1 (front ++ [n])) with (size_of (front ++ [n])).
    change (fold_right Nat.mul 1 front) with (size_of front).
    rewrite size_of_app. simpl. lia.
Qed.

(** ** Crop *)

(** X8. On a well-shaped array whose last axis has length n, [_crop]
    returns a well-shaped array with the same leading axes and a last axis
    of length n - 3 (zero when n is below 3), and the element at position j
    of the last axis of the result is the element at position j + 3 of the
    input, under the same leading indices. *)
Theorem crop_drops_three_leading_entries (a : ndarray) (front : list nat) (n : nat) :
  shape a = front ++ [n] ->
  well_shaped a ->
  exists b,
    _crop a = inr b /\
    shape b = front ++ [n - 3] /\
    well_shaped b /\
    forall idx j,
      Forall2 lt idx front -> j < n - 3 ->
      item b (idx ++ [j]) = item a (idx ++ [j + 3]).
Proof.
  destruct a as [sh dat]. unfold well_shaped. simpl. intros -> Hwf.
  rewrite size_of_app in Hwf. simpl in Hwf.
  unfold _crop, drop_last_axis. simpl shape. simpl data.
  rewrite rev_app_distr. simpl. rewrite rev_involutive.
  change (fold_right Nat.mul 1 front) with (size_of front).
  assert (Hblock : forall k, 0 <= k < 0 + size_of front ->
                     length (block (k * n + 3) (n - 3) dat) = n - 3).
  { intros k Hk. unfold block. rewrite length_firstn, length_skipn. nia. }
  eexists. split; [reflexivity |]. simpl. split; [reflexivity | split].
  - rewrite (@length_flat_map_uniform _ _ (n - 3)).
    + rewrite length_seq, size_of_app. simpl. lia.
    + intros o Ho. apply in_seq in Ho. apply Hblock. lia.
  - intros idx j Hidx Hj. unfold item. simpl.
    pose proof (Forall2_length Hidx) as Hlen.
    pose proof (offset_lt Hidx) as Hoff.
    rewrite !offset_snoc by exact Hlen.
    rewrite (@nth_flat_map_uniform _ _ (n - 3)); [| exact Hblock | exact Hoff | exact Hj].
    rewrite nth_block by exact Hj. simpl. f_equal. lia.
Qed.

Lemma crop_drops_three_leading_entries_witness :
  (shape scan_125 = [1; 2] ++ [5] /\ well_shaped scan_125) /\
  exists b,
    _crop scan_125 = inr b /\
    shape b = [1; 2] ++ [5 - 3] /\
    well_shaped b /\
    forall idx j,
      Forall2 lt idx [1; 2] -> j < 5 - 3 ->
      item b (idx ++ [j]) = item scan_125 (idx ++ [j + 3]).
Proof.
  split; [split; reflexivity |].
  apply (@crop_drops_three_leading_entries scan_125 [1; 2] 5); reflexivity.
Defined.

(** ** Display transform *)

(** [a[:, i, :]] of a three-axis array. *)
Lemma index_axis1_rank3 (a : ndarray) (X Y Z i : nat) :
  shape a = [X; Y; Z] -> well_shaped a -> i < Y ->
  exists s,
    index_axis1 a i = inr s /\
    shape s = [X; Z] /\
    length (data s) = X * Z /\
    forall c z, c < X -> z < Z -> item s [c; z] = item a [c; i; z].
Proof.
  destruct a as [sh dat]. unfold well_shaped. simpl. intros -> Hwf Hi.
  simpl in Hwf. rewrite Nat.mul_1_r in Hwf.
  unfold index_axis1, take_axis, ndim. simpl.
  destruct (Nat.ltb_spec i Y) as [_ | H]; [| lia].
  rewrite !Nat.mul_1_r.
  assert (Hblock : forall k, 0 <= k < 0 + X ->
                     length (block ((k * Y + i) * Z) Z dat) = Z).
  { intros k Hk. apply length_block. rewrite Hwf.
    assert (H1 : k * Y + i + 1 <= X * Y) by nia.
    apply (Nat.mul_le_mono_r _ _ Z) in H1. lia. }
  eexists. split; [reflexivity |]. simpl. split; [reflexivity | split].
  - rewrite (@length_flat_map_uniform _ _ Z).
    + rewrite length_seq. reflexivity.
    + intros o Ho. apply in_seq in Ho. apply Hblock. lia.
  - intros c z Hc Hz. unfold item. simpl.
    rewrite !Nat.mul_1_r, !Nat.add_0_r.
    rewrite (@nth_flat_map_uniform _ _ Z); [| exact Hblock | exact Hc | exact Hz].
    rewrite nth_block by exact Hz. simpl. f_equal. lia.
Qed.

(** [s.T] of a two-axis array. *)
Lemma transpose_rank2 (s : ndarray) (P R : nat) :
  shape s = [P; R] ->
  shape (transpose s) = [R; P] /\
  length (data (transpose s)) = R * P /\
  forall r p, r < R -> p < P -> item (transpose s) [r; p] = item s [p; r].
Proof.
  intros Hs. unfold transpose. rewrite Hs. cbn [rev app shape data].
  split; [reflexivity | split].
  - rewrite length_map, length_indices. simpl. lia.
  - intros r p Hr Hp. unfold item at 1. cbn [shape data].
    assert (Hidx : Forall2 lt [r; p] [R; P]) by (repeat constructor; assumption).
    rewrite (nth_indep _ 0%Q (item s (rev [])))
      by (rewrite length_map, length_indices; apply offset_lt, Hidx).
    rewrite (map_nth (fun m => item s (rev m))).
    rewrite (nth_indices [] Hidx). reflexivity.
Qed.

(** [t[::-1, :]] of a two-axis array. *)
Lemma flip_first_rank2 (t : ndarray) (R P : nat) :
  shape t = [R; P] -> length (data t) = R * P ->
  exists d,
    flip_first t = inr d /\
    shape d = [R; P] /\
    length (data d) = R * P /\
    forall r p, r < R -> p < P -> item d [r; p] = item t [R - 1 - r; p].
Proof.
  destruct t as [sh dat]. simpl. intros -> Hlen.
  unfold flip_first. simpl. rewrite !Nat.mul_1_r.
  assert (Hblock : forall k, 0 <= k < 0 + R ->
                     length (block ((R - 1 - k) * P) P dat) = P).
  { intros k Hk. apply length_block. nia. }
  eexists. split; [reflexivity |]. simpl. split; [reflexivity | split].
  - rewrite (@length_flat_map_uniform _ _ P).
    + rewrite length_seq. reflexivity.
    + intros o Ho. apply in_seq in Ho. apply Hblock. lia.
  - intros r p Hr Hp. unfold item. simpl.
    rewrite !Nat.mul_1_r, !Nat.add_0_r.
    rewrite (@nth_flat_map_uniform _ _ P); [| exact Hblock | exact Hr | exact Hp].
    rewrite nth_block by exact Hp. reflexivity.
Qed.

(** X9. For a well-shaped volume of X x Y x Z voxels and an index i below
    Y, the displayed slice [a[:, i, :].T[::-1, :]] has Z rows and X columns,
    and its element in row r and column c is the voxel (c, i, Z - 1 - r):
    the last axis runs upwards in the picture and the first axis runs to
    the right. *)
Theorem display_slice_orientation (a : ndarray) (X Y Z i : nat) :
  shape a = [X; Y; Z] -> well_shaped a -> i < Y ->
  exists d,
    display_slice a i = inr d /\
    shape d = [Z; X] /\
    well_shaped d /\
    forall r c, r < Z -> c < X -> item d [r; c] = item a [c; i; Z - 1 - r].
Proof.
  intros Hs Hwf Hi.
  destruct (@index_axis1_rank3 a X Y Z i Hs Hwf Hi) as (s & Es & Hss & Hls & Hitem_s).
  destruct (@transpose_rank2 s X Z Hss) as (Hst & Hlt & Hitem_t).
  destruct (@flip_first_rank2 (transpose s) Z X Hst Hlt) as (d & Ed & Hsd & Hld & Hitem_d).
  exists d. unfold display_slice. rewrite Es. simpl.
  split; [exact Ed | split; [exact Hsd | split]].
  - unfold well_shaped. rewrite Hsd, Hld. simpl. lia.
  - intros r c Hr Hc.
    rewrite Hitem_d, Hitem_t, Hitem_s by lia. reflexivity.
Qed.

Lemma display_slice_orientation_witness :
  (shape scan_125 = [1; 2; 5] /\ well_shaped scan_125 /\ 1 < 2) /\
  exists d,
    display_slice scan_125 1 = inr d /\
    shape d = [5; 1] /\
    well_shaped d /\
    forall r c, r < 5 -> c < 1 -> item d [r; c] = item scan_125 [c; 1; 5 - 1 - r].
Proof.
  split; [repeat split; lia |].
  apply (@display_slice_orientation scan_125 1 2 5 1); [reflexivity | reflexivity | lia].
Defined.

(** ** Visualization composer: what reaches the file system *)

(** X10. Whatever its arguments, [make_image] raises an exception and
    leaves the world untouched: the right overlay always has at least four
    axes, which the last [imshow] refuses when nothing has raised before,
    so that [savefig] is never reached and no figure is ever saved. *)
Theorem make_image_never_saves (RdYlBu : Q -> rgba) (p : Patient)
  (segmentation : ndarray) (coronal_index : nat) (dice : Q) (output_dir : string)
  (w : world) :
  exists e,
    make_image RdYlBu p segmentation coronal_index dice output_dir w = (w, inl e).
Proof. apply make_image_raises. Qed.

(** X11. When the FLAIR image has fewer than three axes, or the slice
    index is not below the length of its second axis, [make_image] raises
    IndexError and saves nothing. *)
Theorem make_image_index_out_of_range (RdYlBu : Q -> rgba) (p : Patient)
  (segmentation : ndarray) (coronal_index : nat) (dice : Q) (output_dir : string)
  (w : world) :
  (ndim (flair p) < 3 \/
   exists Y, nth_error (shape (flair p)) 1 = Some Y /\ Y <= coronal_index) ->
  make_image RdYlBu p segmentation coronal_index dice output_dir w = (w, inl IndexError).
Proof.
  intros H. unfold make_image, bind, lift.
  assert (E : display_slice (flair p) coronal_index = inl IndexError).
  { unfold display_slice, index_axis1, take_axis.
    destruct (Nat.ltb_spec (ndim (flair p)) 3) as [_ | Hge]; [reflexivity |].
    destruct H as [Hlt | (Y & EY & Hle)]; [lia |].
    rewrite EY. destruct (Nat.ltb_spec coronal_index Y); [lia | reflexivity]. }
  rewrite E. reflexivity.
Qed.

Lemma make_image_index_out_of_range_witness :
  (ndim (flair (patient_with scan_125 scan_125)) < 3 \/
   exists Y, nth_error (shape (flair (patient_with scan_125 scan_125))) 1 = Some Y /\
             Y <= 4) /\
  make_image gray_table (patient_with scan_125 scan_125) one_positive 4 (1 # 2) "out"
    quiet_world
  = (quiet_world, inl IndexError).
Proof.
  assert (H : ndim (flair (patient_with scan_125 scan_125)) < 3 \/
              exists Y, nth_error (shape (flair (patient_with scan_125 scan_125))) 1 = Some Y /\
                        Y <= 4).
  { right. exists 2. split; [reflexivity | lia]. }
  split; [exact H |].
  apply (@make_image_index_out_of_range gray_table (patient_with scan_125 scan_125)
           one_positive 4 (1 # 2) "out" quiet_world H).
Defined.

Lemma nothing_emitted (new : list event) : Forall (fun _ => False) new -> new = [].
Proof. intros H. destruct H as [| e t He _]; [reflexivity | contradiction]. Qed.

(** X12. Asked for at least one image, [make_images] never returns and
    never saves a figure: it raises with the trace as it was (only random
    numbers may have been consumed). *)
Theorem make_images_never_completes (RdYlBu : Q -> rgba) (p : Patient)
  (predicted_seg : ndarray) (output_directory : string) (dice : Q)
  (num_images : nat) (w : world) :
  1 <= num_images ->
  exists w' e,
    make_images RdYlBu p predicted_seg output_directory dice num_images w = (w', inl e) /\
    trace w' = trace w.
Proof.
  intros Hk.
  destruct (@stops_with_make_images (fun _ => False) RdYlBu p predicted_seg
              output_directory dice num_images Hk w) as (new & e & E & F & R).
  apply nothing_emitted in F. subst new. rewrite app_nil_r in E.
  destruct (make_images RdYlBu p predicted_seg output_directory dice num_images w)
    as [w' r]. simpl in E, R. subst r.
  exists w', e. split; [reflexivity | exact E].
Qed.

Lemma make_images_never_completes_witness :
  1 <= 5 /\
  exists w' e,
    make_images gray_table (patient_with tumor_off_axis tumor_off_axis) one_positive
      "out" (1 # 2) 5 quiet_world = (w', inl e) /\
    trace w' = trace quiet_world.
Proof.
  assert (H : 1 <= 5) by lia.
  split; [exact H |].
  apply (@make_images_never_completes gray_table
           (patient_with tumor_off_axis tumor_off_axis) one_positive "out" (1 # 2) 5
           quiet_world H).
Defined.

(** ** Reporter on a non-empty list *)

Lemma Qltb_true (x y : Q) : Qltb x y = true -> (x < y)%Q.
Proof.
  unfold Qltb. intros H. apply Qnot_le_lt. intros Hle.
  apply Qle_bool_iff in Hle. rewrite Hle in H. discriminate H.
Qed.

Lemma Qltb_false (x y : Q) : Qltb x y = false -> (y <= x)%Q.
Proof.
  unfold Qltb. intros H. apply Qle_bool_iff.
  destruct (Qle_bool y x); [reflexivity | discriminate H].
Qed.

Lemma fold_min_spec (rest : list Q) :
  forall x,
    let m := fold_left (fun m y => if Qltb y m then y else m) rest x in
    In m (x :: rest) /\ forall y, In y (x :: rest) -> (m <= y)%Q.
Proof.
  induction rest as [| z rest IH]; intros x; simpl.
  - split; [left; reflexivity | intros y [<- | []]; lra].
  - destruct (IH (if Qltb z x then z else x)) as [Hin Hle]. split.
    + destruct Hin as [Hin | Hin]; [| right; right; exact Hin].
      rewrite <- Hin. destruct (Qltb z x); [right; left | left]; reflexivity.
    + intros y Hy.
      assert (Hhead : (fold_left (fun m y0 => if Qltb y0 m then y0 else m) rest
                         (if Qltb z x then z else x)
                       <= (if Qltb z x then z else x))%Q)
        by (apply Hle; left; reflexivity).
      destruct Hy as [<- | [<- | Hy]].
      * destruct (Qltb z x) eqn:E; [apply Qltb_true in E; lra | exact Hhead].
      * destruct (Qltb z x) eqn:E; [exact Hhead | apply Qltb_false in E; lra].
      * apply Hle. right. exact Hy.
Qed.

Lemma fold_max_spec (rest : list Q) :
  forall x,
    let m := fold_left (fun m y => if Qltb m y then y else m) rest x in
    In m (x :: rest) /\ forall y, In y (x :: rest) -> (y <= m)%Q.
Proof.
  induction rest as [| z rest IH]; intros x; simpl.
  - split; [left; reflexivity | intros y [<- | []]; lra].
  - destruct (IH (if Qltb x z then z else x)) as [Hin Hle]. split.
    + destruct Hin as [Hin | Hin]; [| right; right; exact Hin].
      rewrite <- Hin. destruct (Qltb x z); [right; left | left]; reflexivity.
    + intros y Hy.
      assert (Hhead : ((if Qltb x z then z else x)
                       <= fold_left (fun m y0 => if Qltb m y0 then y0 else m) rest
                            (if Qltb x z then z else x))%Q)
        by (apply Hle; left; reflexivity).
      destruct Hy as [<- | [<- | Hy]].
      * destruct (Qltb x z) eqn:E; [apply Qltb_true in E; lra | exact Hhead].
      * destruct (Qltb x z) eqn:E; [exact Hhead | apply Qltb_false in E; lra].
      * apply Hle. right. exact Hy.
Qed.

(** X13. On a non-empty list of scores [log_metrics] never raises: it
    logs the five records (header, mean, standard deviation, minimum,
    maximum) in this order and does nothing else, and the minimum and the
    maximum it logs are scores of the list that bound every score. *)
Theorem log_metrics_nonempty (np_sqrt : Q -> Q) (dice_coefficients : list Q)
  (name : string) (w : world) :
  dice_coefficients <> [] ->
  exists mean_dice std_dice min_dice max_dice,
    log_metrics np_sqrt dice_coefficients name w
    = (after [LogInfo (EvaluationComplete name);
              LogInfo (MeanDice mean_dice);
              LogInfo (StdDice std_dice);
              LogInfo (MinDice min_dice);
              LogInfo (MaxDice max_dice)] w,
       inr tt) /\
    In min_dice dice_coefficients /\ In max_dice dice_coefficients /\
    (forall x, In x dice_coefficients -> (min_dice <= x)%Q /\ (x <= max_dice)%Q).
Proof.
  destruct dice_coefficients as [| x rest]; [congruence | intros _].
  destruct (fold_min_spec rest x) as [Hmin_in Hmin].
  destruct (fold_max_spec rest x) as [Hmax_in Hmax].
  do 4 eexists. split; [| split; [exact Hmin_in | split; [exact Hmax_in |]]].
  - unfold log_metrics, info, emit, bind, lift, after. simpl.
    rewrite <- !app_assoc. reflexivity.
  - intros y Hy. split; [apply Hmin | apply Hmax]; exact Hy.
Qed.

Lemma log_metrics_nonempty_witness :
  [(1 # 2)%Q; (1 # 4)%Q; (3 # 4)%Q] <> [] /\
  exists mean_dice std_dice min_dice max_dice,
    log_metrics sqrt_floor [(1 # 2)%Q; (1 # 4)%Q; (3 # 4)%Q] "unnamed" quiet_world
    = (after [LogInfo (EvaluationComplete "unnamed");
              LogInfo (MeanDice mean_dice);
              LogInfo (StdDice std_dice);
              LogInfo (MinDice min_dice);
              LogInfo (MaxDice max_dice)] quiet_world,
       inr tt) /\
    In min_dice [(1 # 2)%Q; (1 # 4)%Q; (3 # 4)%Q] /\
    In max_dice [(1 # 2)%Q; (1 # 4)%Q; (3 # 4)%Q] /\
    (forall x, In x [(1 # 2)%Q; (1 # 4)%Q; (3 # 4)%Q] ->
               (min_dice <= x)%Q /\ (x <= max_dice)%Q).
Proof.
  split; [discriminate |].
  apply (@log_metrics_nonempty sqrt_floor [(1 # 2)%Q; (1 # 4)%Q; (3 # 4)%Q]
           "unnamed" quiet_world).
  discriminate.
Defined.

(** ** Partition evaluator: empty partitions and the output directory *)

Lemma always_raises_bind_l {A B} (m : M A) (k : A -> M B) :
  always_raises m -> always_raises (bind m k).
Proof.
  intros Hm w. unfold bind. destruct (Hm w) as (e & E).
  destruct (m w) as [w1 [e1 | a]]; simpl in E; [exists e1; reflexivity | discriminate E].
Qed.

Lemma always_raises_bind_r {A B} (m : M A) (k : A -> M B) :
  (forall a, always_raises (k a)) -> always_raises (bind m k).
Proof.
  intros Hk w. unfold bind.
  destruct (m w) as [w1 [e1 | a]]; [exists e1; reflexivity | apply Hk].
Qed.

(** An empty partition: the directory is created, then the reporter
    raises on the empty list of scores. *)
Lemma make_histograms_and_images_empty (RdYlBu : Q -> rgba) (np_sqrt : Q -> Q)
  (brats : DataSet) (run_model : ndarray -> result ndarray)
  (output_dir name : string) (w : world) :
  make_histograms_and_images RdYlBu np_sqrt brats run_model [] output_dir name w
  = (after [Mkdir (path_join output_dir name)] w, inl ValueError).
Proof. reflexivity. Qed.

(** X14. If any of the three partitions is empty, [evaluate] cannot
    complete: it raises, at the latest with the ValueError of the reporter
    on the empty list of scores of that partition. *)
Theorem evaluate_raises_on_empty_partition (RdYlBu : Q -> rgba) (np_sqrt : Q -> Q)
  (brats : DataSet) (train_ids test_ids validation_ids : list string)
  (run_model : ndarray -> result ndarray) (output_dir : string) (w : world) :
  train_ids = [] \/ test_ids = [] \/ validation_ids = [] ->
  exists e,
    snd (evaluate RdYlBu np_sqrt brats (train_ids, test_ids, validation_ids)
           run_model output_dir w) = inl e.
Proof.
  intros H. revert w.
  change (always_raises
            (evaluate RdYlBu np_sqrt brats (train_ids, test_ids, validation_ids)
               run_model output_dir)).
  assert (Hempty : forall name,
             always_raises
               (make_histograms_and_images RdYlBu np_sqrt brats run_model []
                  output_dir name)).
  { intros name w. exists ValueError. rewrite make_histograms_and_images_empty.
    reflexivity. }
  unfold evaluate.
  apply always_raises_bind_r; intros _.
  destruct H as [-> | [-> | ->]].
  - do 4 (apply always_raises_bind_r; intros _). apply Hempty.
  - apply always_raises_bind_l, Hempty.
  - do 2 (apply always_raises_bind_r; intros _). apply always_raises_bind_l, Hempty.
Qed.

Lemma evaluate_raises_on_empty_partition_witness :
  (["Brats18_0003"%string] = [] \/ @nil string = [] \/ ["Brats18_0002"%string] = []) /\
  exists e,
    snd (evaluate gray_table sqrt_floor one_patient_dataset
           (["Brats18_0003"%string], [], ["Brats18_0002"%string])
           constant_model "out" quiet_world) = inl e.
Proof.
  assert (H : ["Brats18_0003"%string] = [] \/ @nil string = [] \/
              ["Brats18_0002"%string] = []) by (right; left; reflexivity).
  split; [exact H |].
  apply (@evaluate_raises_on_empty_partition gray_table sqrt_floor one_patient_dataset
           ["Brats18_0003"%string] [] ["Brats18_0002"%string]
           constant_model "out" quiet_world H).
Defined.

(** X15. Whatever the partitions, the model and the dataset are,
    [evaluate] never completes.  It announces the test partition, creates
    the directory [<output_dir>/unnamed], looks up the first test
    identifier, if there is one, through the training split, logs nothing
    further but patient score records, and raises: no figure is saved, the
    cache is never dropped, no summary is logged, and the validation and
    training partitions are never started. *)
Theorem evaluate_stops_in_test_partition (RdYlBu : Q -> rgba) (np_sqrt : Q -> Q)
  (brats : DataSet) (train_ids test_ids validation_ids : list string)
  (run_model : ndarray -> result ndarray) (output_dir : string) (w : world) :
  exists notes e,
    trace (fst (evaluate RdYlBu np_sqrt brats (train_ids, test_ids, validation_ids)
                  run_model output_dir w))
    = trace w ++ LogInfo (Plain "Evaluating test data...")
                 :: Mkdir (path_join output_dir "unnamed")
                 :: map (Fetch Train) (firstn 1 test_ids) ++ notes /\
    Forall patient_note notes /\
    snd (evaluate RdYlBu np_sqrt brats (train_ids, test_ids, validation_ids)
           run_model output_dir w) = inl e.
Proof. apply evaluate_stops. Qed.

(** ** Partition evaluator: one patient in the cache at a time *)

















(** ** Inference wrapper *)

(** The crop of an array with the batch axis added never raises. *)
Lemma crop_expand_dims_returns (a : ndarray) :
  exists cropped, _crop (expand_dims0 a) = inr cropped.
Proof.
  unfold _crop, drop_last_axis, expand_dims0. simpl shape.
  destruct (rev (1 :: shape a)) as [| n front] eqn:E.
  - apply (f_equal (@length nat)) in E. rewrite length_rev in E. discriminate E.
  - eexists. reflexivity.
Qed.

(** X17. [get_segmentation] never fails in preparing the input: the model
    is called once, on the cropped image with its batch axis; an exception
    of the model is passed on unchanged, and otherwise the result is the
    model output thresholded at 0.5, a 0/1 array of the shape of that
    output. *)
Theorem get_segmentation_outcome (run_model : ndarray -> result ndarray)
  (mri_ : ndarray) :
  exists cropped,
    _crop (expand_dims0 mri_) = inr cropped /\
    ((exists e,
        run_model cropped = inl e /\ get_segmentation run_model mri_ = inl e) \/
     (exists out pred,
        run_model cropped = inr out /\
        get_segmentation run_model mri_ = inr pred /\
        pred = to_single_class out (1 # 2) /\
        shape pred = shape out /\
        Forall (fun x => x = 0%Q \/ x = 1%Q) (data pred))).
Proof.
  destruct (crop_expand_dims_returns mri_) as (cropped & E).
  exists cropped. split; [exact E |].
  unfold get_segmentation. rewrite E. simpl.
  destruct (run_model cropped) as [e | out]; simpl.
  - left. exists e. split; reflexivity.
  - right. exists out, (to_single_class out (1 # 2)).
    repeat split.
    rewrite to_single_class_elementwise. simpl.
    apply Forall_forall. intros y Hy. apply in_map_iff in Hy.
    destruct Hy as (x & <- & _).
    destruct (threshold_at_cases (1 # 2) x) as [[_ ->] | [_ ->]];
      [right | left]; reflexivity.
Qed.

(** ** Weighted slice selection: no slice of weight zero *)

(** Where the search ends: the probe before the result, if any was made,
    did not exceed [x], and the probe at the result, if any was made,
    exceeded [x]. *)
Lemma bisect_brackets (a : list Q) (x : Q) (lo hi : nat) :
  lo <= hi -> hi <= length a ->
  exists i,
    bisect a x lo hi = inr i /\ lo <= i <= hi /\
    (i = lo \/ exists c, nth_error a (i - 1) = Some c /\ (c <= x)%Q) /\
    (i = hi \/ exists c, nth_error a i = Some c /\ (x < c)%Q).
Proof.
  funelim (bisect a x lo hi); intros Hlo Hhi.
  - exists lo. split; [reflexivity | split; [lia | split; left; lia]].
  - exfalso.
    assert (Hmid : (lo + hi) / 2 < hi) by (apply Nat.Div0.div_lt_upper_bound; lia).
    match goal with
    | Hg : getitem a _ = inl _ |- _ =>
        unfold getitem in Hg;
        destruct (nth_error a ((lo + hi) / 2)) eqn:E; [discriminate Hg |]
    end.
    apply nth_error_None in E. lia.
  - assert (Hmid : (lo + hi) / 2 < hi) by (apply Nat.Div0.div_lt_upper_bound; lia).
    assert (Hmid' : lo <= (lo + hi) / 2) by (apply Nat.div_le_lower_bound; lia).
    match goal with
    | IH : _ -> _ -> exists _, _ |- _ =>
        destruct IH as (i & E & Hi & Hbelow & Habove); [lia | lia |]
    end.
    exists i. split; [exact E | split; [lia | split; [exact Hbelow |]]].
    destruct Habove as [-> | Habove]; [| right; exact Habove].
    right. exists a_mid. split.
    + match goal with
      | Hg : getitem a _ = inr a_mid |- _ =>
          unfold getitem in Hg;
          destruct (nth_error a ((lo + hi) / 2)); [injection Hg as ->; reflexivity
                                                  | discriminate Hg]
      end.
    + match goal with Hq : Qltb x a_mid = true |- _ => apply Qltb_true, Hq end.
  - assert (Hmid : (lo + hi) / 2 < hi) by (apply Nat.Div0.div_lt_upper_bound; lia).
    assert (Hmid' : lo <= (lo + hi) / 2) by (apply Nat.div_le_lower_bound; lia).
    match goal with
    | IH : _ -> _ -> exists _, _ |- _ =>
        destruct IH as (i & E & Hi & Hbelow & Habove); [lia | lia |]
    end.
    exists i. split; [exact E | split; [lia | split; [| exact Habove]]].
    destruct Hbelow as [-> | Hbelow]; [| right; exact Hbelow].
    right. exists a_mid. split.
    + replace ((lo + hi) / 2 + 1 - 1) with ((lo + hi) / 2) by lia.
      match goal with
      | Hg : getitem a _ = inr a_mid |- _ =>
          unfold getitem in Hg;
          destruct (nth_error a ((lo + hi) / 2)); [injection Hg as ->; reflexivity
                                                  | discriminate Hg]
      end.
    + match goal with Hq : Qltb x a_mid = false |- _ => apply Qltb_false, Hq end.
Qed.

(** Each running sum is the one before it plus the weight at its place. *)
Lemma running_step (ws : list Q) :
  forall acc j c,
    nth_error (acc :: running acc ws) (S j) = Some c ->
    exists c' wj,
      nth_error (acc :: running acc ws) j = Some c' /\
      nth_error ws j = Some wj /\ c = (c' + wj)%Q.
Proof.
  induction ws as [| w ws IH]; intros acc j c H.
  - destruct j; discriminate H.
  - destruct j as [| j].
    + simpl in H. injection H as <-. exists acc, w. repeat split.
    + simpl in H. destruct (IH (acc + w)%Q j c H) as (c' & wj & E1 & E2 & E3).
      exists c', wj. repeat split; assumption.
Qed.

Lemma accumulate_step (ws : list Q) (j : nat) (c : Q) :
  nth_error (accumulate ws) (S j) = Some c ->
  exists c' wj,
    nth_error (accumulate ws) j = Some c' /\
    nth_error ws (S j) = Some wj /\ c = (c' + wj)%Q.
Proof.
  destruct ws as [| w ws]; [discriminate |]. simpl accumulate. intros H.
  destruct (running_step _ _ _ H) as (c' & wj & E1 & E2 & E3).
  exists c', wj. repeat split; assumption.
Qed.

Lemma accumulate_first (ws : list Q) : nth_error (accumulate ws) 0 = nth_error ws 0.
Proof. destruct ws; reflexivity. Qed.

Lemma last_item_nth_error {A} (l : list A) (x : A) :
  last_item l = inr x -> nth_error l (length l - 1) = Some x.
Proof.
  unfold last_item. intros H.
  destruct (rev l) as [| y r] eqn:E; [discriminate H |]. injection H as ->.
  apply (f_equal (@rev A)) in E. rewrite rev_involutive in E. subst l.
  simpl. rewrite length_app. simpl.
  replace (length (rev r) + 1 - 1) with (length (rev r)) by lia.
  rewrite nth_error_app2 by lia. rewrite Nat.sub_diag. reflexivity.
Qed.

(** A comprehension whose body succeeds in every world that satisfies an
    invariant kept by the draws. *)
Lemma comprehension_draws_inv {A} (body : M A) (P : A -> Prop) (I : world -> Prop) :
  (forall w, I w -> I (advance 1 w)) ->
  (forall w, I w -> exists x, body w = (advance 1 w, inr x) /\ P x) ->
  forall k w, I w -> exists xs,
    comprehension k body w = (advance k w, inr xs) /\ Forall P xs /\ length xs = k.
Proof.
  intros Hinv Hbody. induction k as [| k IH]; intros w Hw.
  - exists []. repeat split; [| constructor].
    unfold advance. simpl. rewrite Nat.add_0_r. destruct w; reflexivity.
  - destruct (Hbody w Hw) as (x & Ex & Px).
    destruct (IH (advance 1 w) (Hinv w Hw)) as (xs & Exs & Pxs & Hlen).
    exists (x :: xs). repeat split; [| constructor; assumption | simpl; congruence].
    simpl. unfold bind. rewrite Ex, Exs. unfold ret, advance. simpl.
    replace (cursor w + 1 + k) with (cursor w + S k) by lia. reflexivity.
Qed.

(** X18. With a non-empty extent, aligned weights of positive total and a
    random generator whose values lie in [0, 1), every index that the
    sampler selects stands at a position of the extent whose weight is
    strictly positive: a slice of weight zero is never selected. *)
Theorem coronal_slices_positive_weight
  (extent : list nat) (weights : list Q) (k : nat) (w : world) :
  extent <> [] ->
  length weights = length extent ->
  (0 < Qsum weights)%Q ->
  (forall n, (0 <= tape w n)%Q /\ (tape w n < 1)%Q) ->
  exists selected,
    coronal_slices extent weights k w = (advance k w, inr selected) /\
    Forall (fun i => exists j wj,
                nth_error extent j = Some i /\
                nth_error weights j = Some wj /\ (0 < wj)%Q) selected.
Proof.
  intros Hne Hlen Htotal Htape.
  assert (Hw : weights <> []) by (destruct weights, extent; simpl in *; congruence).
  destruct (last_accumulate Hw) as (total & Elast & Ht).
  assert (Hn : 0 < length extent) by (destruct extent; simpl; [congruence | lia]).
  assert (Hdrawn : exists drawn,
             choices extent weights k w = (advance k w, inr drawn) /\
             Forall (fun i => exists j wj,
                         nth_error extent j = Some i /\
                         nth_error weights j = Some wj /\ (0 < wj)%Q) drawn /\
             length drawn = k).
  { unfold choices. rewrite length_accumulate, Hlen, Nat.eqb_refl. simpl negb. cbv iota.
    unfold bind at 1. unfold lift at 1. rewrite Elast.
    assert (Epos : Qle_bool total 0 = false).
    { destruct (Qle_bool total 0) eqn:E; [| reflexivity].
      apply Qle_bool_iff in E. lra. }
    rewrite Epos.
    apply (@comprehension_draws_inv _ _ _
             (fun w1 => forall n, (0 <= tape w1 n)%Q /\ (tape w1 n < 1)%Q));
      [intros w1 H1; exact H1 | | exact Htape].
    intros w1 H1. destruct (H1 (cursor w1)) as [Hr0 Hr1].
    set (r := tape w1 (cursor w1)) in *.
    assert (Hx0 : (0 <= r * total)%Q) by (apply Qmult_le_0_compat; lra).
    assert (Hx1 : (r * total < total)%Q).
    { setoid_replace total with (1 * total)%Q at 2 by ring.
      apply Qmult_lt_compat_r; lra. }
    destruct (@bisect_brackets (accumulate weights) (r * total)%Q 0 (length extent - 1))
      as (i & Ei & Hi & Hbelow & Habove); [lia | rewrite length_accumulate; lia |].
    assert (Hc : exists c, nth_error (accumulate weights) i = Some c /\ (r * total < c)%Q).
    { destruct Habove as [-> | Habove]; [| exact Habove].
      exists total. split; [| exact Hx1].
      apply last_item_nth_error in Elast.
      rewrite length_accumulate, Hlen in Elast. exact Elast. }
    destruct Hc as (c & Ec & Hxc).
    destruct (nth_error extent i) as [p |] eqn:Ep;
      [| apply nth_error_None in Ep; lia].
    exists p. split.
    - unfold bind, random, lift, advance. simpl. fold r. rewrite Ei.
      unfold getitem. rewrite Ep. rewrite Nat.add_1_r. reflexivity.
    - exists i. destruct i as [| j].
      + rewrite accumulate_first in Ec. exists c.
        split; [exact Ep | split; [exact Ec | lra]].
      + destruct (accumulate_step _ _ Ec) as (c' & wj & Ec' & Ewj & ->).
        exists wj. split; [exact Ep | split; [exact Ewj |]].
        destruct Hbelow as [Habs | (c0 & Ec0 & Hc0)]; [discriminate Habs |].
        simpl in Ec0. rewrite Nat.sub_0_r in Ec0. rewrite Ec' in Ec0.
        injection Ec0 as <-. lra. }
  destruct Hdrawn as (drawn & E & Hpos & _).
  exists (sorted drawn). split.
  - unfold coronal_slices, bind. rewrite E. reflexivity.
  - rewrite Forall_forall in *. intros i Hi. apply Hpos.
    eapply Permutation_in; [apply Permutation_sym, sorted_perm | exact Hi].
Qed.

Lemma coronal_slices_positive_weight_witness :
  ([10; 11; 12] <> [] /\
   length [0%Q; 4%Q; 2%Q] = length [10; 11; 12] /\
   (0 < Qsum [0%Q; 4%Q; 2%Q])%Q /\
   (forall n, (0 <= tape quiet_world n)%Q /\ (tape quiet_world n < 1)%Q)) /\
  exists selected,
    coronal_slices [10; 11; 12] [0%Q; 4%Q; 2%Q] 5 quiet_world
    = (advance 5 quiet_world, inr selected) /\
    Forall (fun i => exists j wj,
                nth_error [10; 11; 12] j = Some i /\
                nth_error [0%Q; 4%Q; 2%Q] j = Some wj /\ (0 < wj)%Q) selected.
Proof.
  assert (Htape : forall n, (0 <= tape quiet_world n)%Q /\ (tape quiet_world n < 1)%Q)
    by (intros n; simpl; split; [discriminate | reflexivity]).
  split.
  - split; [discriminate | split; [reflexivity | split; [reflexivity | exact Htape]]].
  - apply (@coronal_slices_positive_weight [10; 11; 12] [0%Q; 4%Q; 2%Q] 5 quiet_world);
      [discriminate | reflexivity | reflexivity | exact Htape].
Defined.
